(** * Smart But Friendly Passwords: a shallow embedding of the validator

    The development follows [smart_but_friendly_passwords.py].  A candidate
    is a Python [str]; here it is a list of 8-bit characters, so the
    candidates range over the code points 0..255 and the character
    predicates below are Python's ([str.islower], [str.isspace], the
    regular-expression classes, ...) on that range.

    Python integers are unbounded: counts and lengths are [nat], the score
    (which can go below zero) is [Z].  The two true divisions of the module
    produce floats that are only ever compared with the literals 0.60, 0.30
    and 0.2; the quotient of two integers is correctly rounded, so each of
    these comparisons agrees with the comparison of the exact rational for
    every string shorter than 2^50 characters.  The quotients are modelled
    as exact rationals ([Q]).

    The operations of the module that can raise (indexing a string, true
    division) are written in an error monad, so that "no exception" is a
    statement about the embedding and not an artefact of it.  The modulo
    and floor division of [_is_repeated_short_chunk] only ever divide by
    the literals 1, 2 and 3. *)

From Stdlib Require Import ZArith QArith Ascii String List Lia Bool.
From stdpp Require Import gmap strings list.

Open Scope nat_scope.

(** ** Exceptions and the error monad *)

Inductive exn : Type :=
| ZeroDivisionError
| IndexError.

Inductive result (A : Type) : Type :=
| Ok (a : A)
| Raise (e : exn).
Arguments Ok {A} a.
Arguments Raise {A} e.

#[export] Instance result_ret : MRet result := fun _ a => Ok a.
#[export] Instance result_bind : MBind result := fun _ _ f m =>
  match m with
  | Ok a => f a
  | Raise e => Raise e
  end.

(** [for x in xs: st = body(st, x)], stopping at the first exception. *)
Fixpoint for_each {A St : Type} (xs : list A) (body : St → A → result St)
    (st : St) : result St :=
  match xs with
  | [] => mret st
  | x :: xs' => st' ← body st x; for_each xs' body st'
  end.

(** ** Python strings *)

Abbreviation pystr := (list ascii).

Definition str (s : string) : pystr := list_ascii_of_string s.

Definition ord (c : ascii) : N := N_of_ascii c.

Definition in_range (lo hi : N) (c : ascii) : bool :=
  ((lo <=? ord c) && (ord c <=? hi))%N.

(** [range(a, b)] for non-negative bounds. *)
Definition py_range (a b : nat) : list nat := seq a (b - a).

(** [s[i]] for a non-negative index. *)
Definition py_index (s : pystr) (i : nat) : result ascii :=
  match s !! i with
  | Some c => Ok c
  | None => Raise IndexError
  end.

(** [a / b] on integers. *)
Definition py_truediv (a b : Z) : result Q :=
  if (b =? 0)%Z then Raise ZeroDivisionError
  else Ok (inject_Z a / inject_Z b)%Q.

Definition Qlt_bool (x y : Q) : bool := negb (Qle_bool y x).

(** [s[i:j]] for non-negative bounds: out-of-range bounds are clamped. *)
Definition slice (s : pystr) (i j : nat) : pystr := take (j - i) (drop i s).

Definition str_eqb (a b : pystr) : bool := bool_decide (a = b).

Fixpoint startswith (s sub : pystr) : bool :=
  match sub, s with
  | [], _ => true
  | _ :: _, [] => false
  | x :: sub', c :: s' => bool_decide (x = c) && startswith s' sub'
  end.

(** [sub in s]. *)
Fixpoint str_in (sub s : pystr) : bool :=
  startswith s sub ||
  match s with
  | [] => false
  | _ :: s' => str_in sub s'
  end.

(** [c in s] for a single character. *)
Definition char_in (c : ascii) (s : pystr) : bool := bool_decide (c ∈ s).

(** [s * n]. *)
Fixpoint str_mul (s : pystr) (n : nat) : pystr :=
  match n with
  | 0 => []
  | S n' => s ++ str_mul s n'
  end.

(** [s.count(sub)]: occurrences that do not overlap, found left to right.
    [skip] characters still belong to the occurrence found last. *)
Fixpoint count_from (sub : pystr) (skip : nat) (s : pystr) : nat :=
  match s with
  | [] => 0
  | _ :: s' =>
      match skip with
      | S k => count_from sub k s'
      | 0 =>
          if startswith s sub then S (count_from sub (length sub - 1) s')
          else count_from sub 0 s'
      end
  end.

Definition str_count (s sub : pystr) : nat :=
  match sub with
  | [] => S (length s)
  | _ :: _ => count_from sub 0 s
  end.

(** *** Character classes (Python's, on the code points 0..255) *)

Definition islower (c : ascii) : bool :=
  in_range 97 122 c || in_range 170 170 c || in_range 181 181 c
  || in_range 186 186 c || in_range 223 246 c || in_range 248 255 c.

Definition isupper (c : ascii) : bool :=
  in_range 65 90 c || in_range 192 214 c || in_range 216 222 c.

Definition isdigit (c : ascii) : bool :=
  in_range 48 57 c || in_range 178 179 c || in_range 185 185 c.

Definition isalpha (c : ascii) : bool :=
  in_range 65 90 c || in_range 97 122 c || in_range 170 170 c
  || in_range 181 181 c || in_range 186 186 c || in_range 192 214 c
  || in_range 216 246 c || in_range 248 255 c.

Definition isspace (c : ascii) : bool :=
  in_range 9 13 c || in_range 28 32 c || in_range 133 133 c
  || in_range 160 160 c.

(** [string.punctuation] *)
Definition punctuation : pystr :=
  str "!" ++ [ascii_of_N 34] ++ str "#$%&'()*+,-./:;<=>?@[\]^_`{|}~".

(** [c.lower()]: one character for every code point below 256. *)
Definition lower_char (c : ascii) : ascii :=
  if isupper c then ascii_of_N (ord c + 32) else c.

Definition lower (s : pystr) : pystr := map lower_char s.

Fixpoint lstrip (s : pystr) : pystr :=
  match s with
  | [] => []
  | c :: s' => if isspace c then lstrip s' else s
  end.

Definition rstrip (s : pystr) : pystr := rev (lstrip (rev s)).

(** [s.strip()] *)
Definition strip (s : pystr) : pystr := rstrip (lstrip s).

(** *** The regular expressions of the module *)

(** [[A-Za-z]], [[A-Z]], [[a-z]], [\d] and [\w] (the last two for [str]
    patterns, on the code points 0..255). *)
Definition re_AZaz (c : ascii) : bool := in_range 65 90 c || in_range 97 122 c.
Definition re_AZ (c : ascii) : bool := in_range 65 90 c.
Definition re_az (c : ascii) : bool := in_range 97 122 c.
Definition re_digit (c : ascii) : bool := in_range 48 57 c.
Definition re_word (c : ascii) : bool :=
  in_range 48 57 c || in_range 65 90 c || in_range 95 95 c
  || in_range 97 122 c || in_range 170 170 c || in_range 178 179 c
  || in_range 181 181 c || in_range 185 186 c || in_range 188 190 c
  || in_range 192 214 c || in_range 216 246 c || in_range 248 255 c.

Fixpoint take_while (p : ascii → bool) (s : pystr) : pystr :=
  match s with
  | [] => []
  | c :: s' => if p c then c :: take_while p s' else []
  end.

(** [re.findall(pattern, s)] for a pattern without groups that never
    matches the empty string.  [m s] is the length of the match of the
    pattern at the head of [s], if there is one.  The scan goes left to
    right: after a match it resumes behind the match ([skip] counts the
    characters of the last match still to be passed), after a failure one
    character later. *)
Fixpoint findall_from (m : pystr → option nat) (skip : nat) (s : pystr)
    : list pystr :=
  match s with
  | [] => []
  | _ :: s' =>
      match skip with
      | S k => findall_from m k s'
      | 0 =>
          match m s with
          | Some (S n) => take (S n) s :: findall_from m n s'
          | _ => findall_from m 0 s'
          end
      end
  end.

Definition re_findall (m : pystr → option nat) (s : pystr) : list pystr :=
  findall_from m 0 s.

(** [[A-Za-z]{7,}]: greedy, and nothing follows, so the match is the whole
    run of letters. *)
Definition match_alpha7 (s : pystr) : option nat :=
  let n := length (take_while re_AZaz s) in
  if 7 <=? n then Some n else None.

(** [[A-Z][a-z]{2,}] *)
Definition match_camel (s : pystr) : option nat :=
  match s with
  | c :: s' =>
      let n := length (take_while re_az s') in
      if re_AZ c && (2 <=? n) then Some (S n) else None
  | [] => None
  end.

(** [re.split(r"[^A-Za-z]+", s)]: the pieces between the maximal runs of
    non-letters, empty pieces at the ends included.  [in_sep] says that the
    previous character belonged to a separator. *)
Fixpoint split_from (in_sep : bool) (s : pystr) : list pystr :=
  match s with
  | [] => [[]]
  | c :: s' =>
      if re_AZaz c then
        match split_from false s' with
        | t :: ts => (c :: t) :: ts
        | [] => [[c]]
        end
      else if in_sep then split_from true s'
      else [] :: split_from true s'
  end.

Definition re_split_nonalpha (s : pystr) : list pystr := split_from false s.

(** [\b] at position [p] of [s]: exactly one of the characters before and
    at [p] is a word character (no character counts as none). *)
Definition is_word_at (s : pystr) (p : nat) : bool :=
  match s !! p with
  | Some c => re_word c
  | None => false
  end.

Definition word_boundary (s : pystr) (p : nat) : bool :=
  xorb (match p with 0 => false | S q => is_word_at s q end) (is_word_at s p).

(** [\b(19|20)\d{2}\b] matching at position [i]. *)
Definition year_at (s : pystr) (i : nat) : bool :=
  word_boundary s i
  && (startswith (drop i s) (str "19") || startswith (drop i s) (str "20"))
  && match s !! (i + 2), s !! (i + 3) with
     | Some c, Some d => re_digit c && re_digit d
     | _, _ => false
     end
  && word_boundary s (i + 4).

(** [re.search(r"\b(19|20)\d{2}\b", s) is not None] *)
Definition re_search_year (s : pystr) : bool :=
  existsb (year_at s) (seq 0 (length s)).

(** ** Heuristic helpers *)

(** The inner [step]: its arguments are single characters of a string, so
    the length test of the source never fails and the result is the
    difference of the code points. *)
Definition step (a b : ascii) : option Z :=
  Some (Z.of_N (ord b) - Z.of_N (ord a))%Z.

Definition is_linear_step (st : option Z) : bool :=
  bool_decide (st = Some 1%Z) || bool_decide (st = Some (-1)%Z).

(** One round of the loop of [_longest_linear_sequence]; the state is
    [(best, cur, last_step)]. *)
Definition linear_body (s : pystr) (st3 : nat * nat * option Z) (i : nat)
    : result (nat * nat * option Z) :=
  let '(best, cur, last_step) := st3 in
  a ← py_index s (i - 1);
  b ← py_index s i;
  let st := step a b in
  if is_linear_step st then
    let cur := if bool_decide (last_step = st) then cur + 1 else 2 in
    mret (max best cur, cur, st)
  else mret (best, 1, None).

Definition _longest_linear_sequence (pw : pystr) : result nat :=
  if bool_decide (pw = []) then mret 0
  else
    let s := map (fun ch => if isalpha ch then lower_char ch else ch) pw in
    st3 ← for_each (py_range 1 (length s)) (linear_body s) (1, 1, None);
    mret (st3.1.1).

Definition _longest_substring_on_line (text line : pystr) : nat :=
  let n := length text in
  foldl
    (fun best i =>
       foldl
         (fun best j =>
            if str_in (slice text i j) line then max best (j - i) else best)
         best
         (py_range (i + best + 1) (min n (i + 12) + 1)))
    1
    (py_range 0 n).

Definition rows : list pystr :=
  [str "`1234567890-="; str "qwertyuiop"; str "asdfghjkl"; str "zxcvbnm"].

Definition _longest_keyboard_walk (pw : pystr) : nat :=
  let lowers := lower pw in
  foldl
    (fun best row =>
       let best := max best (_longest_substring_on_line lowers row) in
       max best (_longest_substring_on_line lowers (rev row)))
    1
    rows.

(** One round of the loop of [_max_same_char_run]; the state is
    [(best, current)]. *)
Definition run_body (pw : pystr) (st2 : nat * nat) (i : nat)
    : result (nat * nat) :=
  let '(best, current) := st2 in
  a ← py_index pw i;
  b ← py_index pw (i - 1);
  if bool_decide (a = b) then
    let current := current + 1 in
    mret (max best current, current)
  else mret (best, 1).

Definition _max_same_char_run (pw : pystr) : result nat :=
  st2 ← for_each (py_range 1 (length pw)) (run_body pw) (1, 1);
  mret (st2.1).

Definition _is_repeated_short_chunk (pw : pystr) : bool :=
  let n := length pw in
  existsb
    (fun k =>
       (n mod k =? 0)
       && (let chunk := slice pw 0 k in
           let repeats := n / k in
           (3 <=? repeats) && str_eqb (str_mul chunk repeats) pw))
    [1; 2; 3]
  || existsb
       (fun k =>
          let chunk := slice pw 0 k in
          (3 <=? str_count pw chunk) && (length chunk * 3 <=? n))
       [1; 2; 3].

Definition vowels : pystr := str "aeiouAEIOU".

Definition count_in (set s : pystr) : nat :=
  length (List.filter (fun ch => char_in ch set) s).

(** The loop of [_looks_like_consonant_smash] over the tokens. *)
Fixpoint smash_loop (tokens : list pystr) : result bool :=
  match tokens with
  | [] => mret false
  | token :: rest =>
      let v := count_in vowels token in
      r ← py_truediv (Z.of_nat v) (Z.of_nat (length token));
      if Qlt_bool r (2 # 10) then mret true else smash_loop rest
  end.

Definition _looks_like_consonant_smash (pw : pystr) : result bool :=
  smash_loop (re_findall match_alpha7 pw).

Definition word_tokens (pw : pystr) : list pystr :=
  List.filter (fun t => 3 <=? length t) (re_split_nonalpha pw).

Definition _looks_like_passphrase (pw : pystr) : bool :=
  2 <=? length (word_tokens pw).

Definition _camel_case_segments (pw : pystr) : nat :=
  length (re_findall match_camel pw).

Definition months : list pystr :=
  map str ["jan"; "feb"; "mar"; "apr"; "may"; "jun";
           "jul"; "aug"; "sep"; "oct"; "nov"; "dec"]%string.

Definition _has_word_plus_dateish (pw : pystr) : result bool :=
  let low := lower pw in
  let has_year := re_search_year low in
  let has_month := existsb (fun m => str_in m low) months in
  let has_word := 1 <=? length (word_tokens pw) in
  seq_len ← _longest_linear_sequence pw;
  let not_trivial_seq := seq_len <? 4 in
  mret (has_word && (has_year || has_month) && not_trivial_seq).

(** ** The detailed validator *)

(** The values of the diagnostic record.  [VRound3 q] stands for the float
    [round(q, 3)]; nothing in the module reads it back. *)
Inductive value : Type :=
| VInt (n : Z)
| VBool (b : bool)
| VStr (s : string)
| VRound3 (q : Q).

Abbreviation info_dict := (gmap string value).

Definition banned_terms : list pystr :=
  map str ["password"; "qwerty"; "letmein"; "welcome"; "iloveyou";
           "dragon"; "monkey"; "admin"; "login"; "abc123"]%string.

Definition ambiguous_set : pystr := str "0Oo1lI|5S2Z8B6G9gQq".

Definition separators : pystr := str "-_ .".

(** Lines 156-196 of [_validate_details]: the score, assembled in the
    order of the source, one assignment after the other. *)
Definition score_assembly (length : nat)
    (has_lower has_upper has_digit has_symbol : bool)
    (passphrase_like camel_segments word_plus_dateish
       meaningful_separators : bool)
    (seq_len kb_len : nat) (repeated_chunk : bool) (max_run : nat)
    (smashy : bool) (amb_ratio : Q) : Z :=
  (let score := 0 in
   let score :=
     if (8 <=? length)%nat && (length <=? 9)%nat then score + 1
     else if (10 <=? length)%nat && (length <=? 11)%nat then score + 2
     else if (12 <=? length)%nat && (length <=? 15)%nat then score + 3
     else score + 4 in
   let variety_count :=
     Z.b2z has_lower + Z.b2z has_upper + Z.b2z has_digit
     + Z.b2z has_symbol in
   let score := score + Z.min 3 (Z.max 0 (variety_count - 1)) in
   let score := if passphrase_like then score + 2 else score in
   let score := if camel_segments then score + 2 else score in
   let score := if word_plus_dateish then score + 1 else score in
   let score :=
     if meaningful_separators && (passphrase_like || camel_segments)
     then score + 1 else score in
   let score := if (4 <=? seq_len)%nat then score - 3 else score in
   let score := if (4 <=? kb_len)%nat then score - 3 else score in
   let score := if repeated_chunk then score - 2 else score in
   let score := if (4 <=? max_run)%nat then score - 2 else score in
   let score := if smashy then score - 2 else score in
   let score :=
     if Qle_bool (30 # 100) amb_ratio && Qlt_bool amb_ratio (60 # 100)
     then score - 1 else score in
   score)%Z.

Definition _validate_details (pw : pystr) : result (bool * info_dict) :=
  let pw := strip pw in
  let info : info_dict := ∅ in
  let length := length pw in
  let info := <["length" := VInt (Z.of_nat length)]> info in
  if length <? 8 then
    mret (false, <["reason" := VStr "too_short"]> info)
  else
  let has_lower := existsb islower pw in
  let has_upper := existsb isupper pw in
  let has_digit := existsb isdigit pw in
  let has_symbol := existsb (fun c => char_in c punctuation || isspace c) pw in
  let info := <["has_lower" := VBool has_lower]> info in
  let info := <["has_upper" := VBool has_upper]> info in
  let info := <["has_digit" := VBool has_digit]> info in
  let info := <["has_symbol" := VBool has_symbol]> info in
  let low_pw := lower pw in
  if existsb (fun term => str_in term low_pw) banned_terms then
    mret (false, <["reason" := VStr "banned_term"]> info)
  else
  let amb_count := count_in ambiguous_set pw in
  amb_ratio ← py_truediv (Z.of_nat amb_count) (Z.of_nat (max 1 length));
  let info := <["ambiguous_ratio" := VRound3 amb_ratio]> info in
  if Qle_bool (60 # 100) amb_ratio then
    mret (false, <["reason" := VStr "too_ambiguous"]> info)
  else
  seq_len ← _longest_linear_sequence pw;
  let kb_len := _longest_keyboard_walk pw in
  let info := <["longest_linear_sequence" := VInt (Z.of_nat seq_len)]> info in
  let info := <["longest_keyboard_walk" := VInt (Z.of_nat kb_len)]> info in
  if 5 <=? max seq_len kb_len then
    mret (false, <["reason" := VStr "too_sequential"]> info)
  else
  max_run ← _max_same_char_run pw;
  let repeated_chunk := _is_repeated_short_chunk pw in
  let info := <["max_same_char_run" := VInt (Z.of_nat max_run)]> info in
  let info := <["repeated_short_chunk" := VBool repeated_chunk]> info in
  smashy ← _looks_like_consonant_smash pw;
  let info := <["consonant_smash" := VBool smashy]> info in
  let passphrase_like := _looks_like_passphrase pw in
  let camel_segments := 2 <=? _camel_case_segments pw in
  word_plus_dateish ← _has_word_plus_dateish pw;
  let meaningful_separators := existsb (fun sep => char_in sep pw) separators in
  let has_intent_signal :=
    passphrase_like || camel_segments || word_plus_dateish in
  let info := <["passphrase_like" := VBool passphrase_like]> info in
  let info := <["camel_case" := VBool camel_segments]> info in
  let info := <["word_plus_dateish" := VBool word_plus_dateish]> info in
  let info := <["meaningful_separators" := VBool meaningful_separators]> info in
  let score :=
    score_assembly length has_lower has_upper has_digit has_symbol
      passphrase_like camel_segments word_plus_dateish meaningful_separators
      seq_len kb_len repeated_chunk max_run smashy amb_ratio in
  let info := <["score" := VInt score]> info in
  let info := <["has_intent_signal" := VBool has_intent_signal]> info in
  if negb has_intent_signal then
    mret (false, <["reason" := VStr "no_intent_signal"]> info)
  else if (3 <=? score)%Z then
    mret (true, <["reason" := VStr "accepted"]> info)
  else
    mret (false, <["reason" := VStr "low_score"]> info).

(** ** Public API *)

Definition is_valid_password (password : pystr) : result bool :=
  r ← _validate_details password;
  mret (r.1).

(** ** The notions of the specification *)

Definition is_substring (t u : pystr) : Prop := ∃ pre post, u = pre ++ t ++ post.

(** [t] occurs in [s] when case is ignored. *)
Definition contains_ci (s t : pystr) : Prop := is_substring (lower t) (lower s).

Definition reason_codes : list string :=
  ["too_short"; "banned_term"; "too_ambiguous"; "too_sequential";
   "no_intent_signal"; "low_score"; "accepted"]%string.

(** The ambiguous-character ratio of section 4.2: the number of characters
    of the candidate in the ambiguous set, divided by its length. *)
Definition ambiguous_ratio (s : pystr) : Q :=
  (inject_Z (Z.of_nat (count_in ambiguous_set s))
   / inject_Z (Z.of_nat (length s)))%Q.

(** The four conditions of the hard-reject gate, on the trimmed candidate. *)
Definition cond_too_short (s : pystr) : Prop := length s < 8.

Definition cond_banned_term (s : pystr) : Prop :=
  ∃ t, t ∈ banned_terms ∧ contains_ci s t.

Definition cond_too_ambiguous (s : pystr) : Prop :=
  (6 # 10 <= ambiguous_ratio s)%Q.

Definition cond_too_sequential (s : pystr) : Prop :=
  ∃ seq_len,
    _longest_linear_sequence s = Ok seq_len
    ∧ 5 ≤ max seq_len (_longest_keyboard_walk s).

Definition passes_hard_reject_gate (s : pystr) : Prop :=
  ¬ cond_too_short s ∧ ¬ cond_banned_term s ∧ ¬ cond_too_ambiguous s
  ∧ ¬ cond_too_sequential s.

(** The validator returns the decision [b] with the reason code [r]. *)
Definition decides (pw : pystr) (b : bool) (r : string) : Prop :=
  ∃ info,
    _validate_details pw = Ok (b, info)
    ∧ info !! "reason"%string = Some (VStr r).

(** The components of the score (section 4.4). *)
Definition length_points (n : nat) : Z :=
  if (8 <=? n) && (n <=? 9) then 1
  else if (10 <=? n) && (n <=? 11) then 2
  else if (12 <=? n) && (n <=? 15) then 3
  else if 16 <=? n then 4
  else 0.

Definition classes_present (s : pystr) : Z :=
  Z.of_nat
    (length
       (List.filter (fun present : bool => present)
          [existsb islower s; existsb isupper s; existsb isdigit s;
           existsb (fun c => char_in c punctuation || isspace c) s])).

Definition variety_points (s : pystr) : Z :=
  Z.min 3 (Z.max 0 (classes_present s - 1)).

(** [w] points when the condition holds, none otherwise. *)
Definition points (w : Z) (cond : bool) : Z := if cond then w else 0%Z.

Definition has_separator (s : pystr) : bool :=
  existsb (fun sep => char_in sep s) (str "-_. ").

(** A boolean version of [passes_hard_reject_gate], for evaluation. *)
Definition passes_gate_b (s : pystr) : bool :=
  negb (length s <? 8)
  && negb (existsb (fun term => str_in term (lower s)) banned_terms)
  && negb (Qle_bool (6 # 10) (ambiguous_ratio s))
  && match _longest_linear_sequence s with
     | Ok seq_len => negb (5 <=? max seq_len (_longest_keyboard_walk s))
     | Raise _ => false
     end.

(** The parts of the word-plus-dateish detector (section 4.3). *)

(** (a) Splitting on the runs of non-letters leaves a token of at least
    three letters. *)
Definition has_word_token (pw : pystr) : Prop :=
  ∃ t, t ∈ re_split_nonalpha pw ∧ 3 ≤ length t.

Definition digit_value (c : ascii) : N := (ord c - 48)%N.

Definition decimal_value (w : pystr) : N :=
  foldl (fun acc c => 10 * acc + digit_value c)%N 0%N w.

(** [w] is a 4-digit year in 1900-2099. *)
Definition is_year (w : pystr) : Prop :=
  length w = 4
  ∧ Forall (fun c => re_digit c = true) w
  ∧ (1900 ≤ decimal_value w ≤ 2099)%N.

Definition contains_year (s : pystr) : Prop :=
  ∃ w, is_year w ∧ is_substring w s.

Definition contains_month (s : pystr) : Prop :=
  ∃ m, m ∈ months ∧ is_substring m s.

(** A year that stands alone: no letter, digit or underscore (no word
    character) directly before or after it. *)
Definition nonword_end (pre : pystr) : Prop :=
  match last pre with
  | Some c => re_word c = false
  | None => True
  end.

Definition nonword_start (post : pystr) : Prop :=
  match head post with
  | Some c => re_word c = false
  | None => True
  end.

Definition contains_standalone_year (s : pystr) : Prop :=
  ∃ pre w post,
    s = pre ++ w ++ post ∧ is_year w ∧ nonword_end pre ∧ nonword_start post.

(** CamelCase segments (section 4.3).  [w] is one uppercase letter
    followed by at least two lowercase letters. *)
Definition is_camel_word (w : pystr) : bool :=
  match w with
  | c :: r => re_AZ c && (2 <=? length r) && forallb re_az r
  | [] => false
  end.

(** The substring [s[i:j]] is a segment: it has that form, and it takes
    all the lowercase letters that follow (one more character would not
    give a word of that form). *)
Definition is_camel_segment (s : pystr) (i j : nat) : bool :=
  is_camel_word (slice s i j)
  && negb ((j <? length s) && is_camel_word (slice s i (S j))).

(** All the segments of [s], as pairs of bounds. *)
Definition camel_segments (s : pystr) : list (nat * nat) :=
  flat_map
    (fun i =>
       map (pair i)
         (List.filter (is_camel_segment s i) (seq (S i) (length s - i))))
    (seq 0 (length s)).

(** ** Names for the expressions of [_validate_details]

    On the trimmed candidate [s]: the banned-term test, the ambiguity
    ratio, and the score as assembled from the detector results. *)
Definition has_banned (s : pystr) : bool :=
  existsb (fun term => str_in term (lower s)) banned_terms.

Definition amb_ratio (s : pystr) : Q :=
  (inject_Z (Z.of_nat (count_in ambiguous_set s))
   / inject_Z (Z.of_nat (max 1 (length s))))%Q.

Definition score_of (s : pystr) (seq_len max_run : nat) (smashy wpd : bool) : Z :=
  score_assembly (length s) (existsb islower s) (existsb isupper s)
    (existsb isdigit s)
    (existsb (fun c => char_in c punctuation || isspace c) s)
    (_looks_like_passphrase s) (2 <=? _camel_case_segments s) wpd
    (existsb (fun sep => char_in sep s) separators)
    seq_len (_longest_keyboard_walk s) (_is_repeated_short_chunk s) max_run
    smashy (amb_ratio s).

(** Whether the pattern [[A-Z][a-z]{2,}] matches at the head of [s], and
    the number of positions of [s] where it does. *)
Definition starts_camel (s : pystr) : bool :=
  match s with
  | c :: r => re_AZ c && (2 <=? length (take_while re_az r))
  | [] => false
  end.

Fixpoint count_starts (s : pystr) : nat :=
  match s with
  | [] => 0
  | _ :: r => (if starts_camel s then 1 else 0) + count_starts r
  end.

(** ** Runs of adjacent characters

    Both run detectors walk the string once and look at each pair of
    neighbours.  [classify a b] says which kind of run the pair [a], [b]
    continues, if any. *)

(** Every pair of neighbours of [w] is related by [R]. *)
Fixpoint adjacent (R : ascii → ascii → Prop) (w : pystr) : Prop :=
  match w with
  | a :: (b :: _) as w' => R a b ∧ adjacent R w'
  | _ => True
  end.

(** [w] is one run: a single character, or all its pairs of one kind. *)
Definition uniform_run {mode : Type} (classify : ascii → ascii → option mode)
    (w : pystr) : Prop :=
  w ≠ []
  ∧ (length w = 1 ∨ ∃ m, adjacent (fun a b => classify a b = Some m) w).

(** One round on the pair [a], [b]; the state is [(best, cur, last)]. *)
Definition scan_step {mode : Type} `{EqDecision mode}
    (classify : ascii → ascii → option mode)
    (st : nat * nat * option mode) (a b : ascii) : nat * nat * option mode :=
  let '(best, cur, last) := st in
  match classify a b with
  | Some m =>
      let cur := if bool_decide (last = Some m) then cur + 1 else 2 in
      (max best cur, cur, Some m)
  | None => (best, 1, None)
  end.

Fixpoint scan {mode : Type} `{EqDecision mode}
    (classify : ascii → ascii → option mode)
    (prev : ascii) (s : pystr) (st : nat * nat * option mode)
    : nat * nat * option mode :=
  match s with
  | [] => st
  | c :: s' => scan classify c s' (scan_step classify st prev c)
  end.

(** What the state says about the part [p] of the string read so far. *)
Definition scan_inv {mode : Type} (classify : ascii → ascii → option mode)
    (p : pystr) (st : nat * nat * option mode) : Prop :=
  let '(best, cur, last) := st in
  (∃ q wc,
     p = q ++ wc ∧ length wc = cur ∧ 1 ≤ cur
     ∧ match last with
       | None => cur = 1
       | Some m => 2 ≤ cur ∧ adjacent (fun a b => classify a b = Some m) wc
       end)
  ∧ (∀ p1 a b, p = p1 ++ [a; b] → last = classify a b)
  ∧ (∀ w, w `suffix_of` p → uniform_run classify w → length w ≤ cur)
  ∧ cur ≤ best
  ∧ (∃ w, is_substring w p ∧ length w = best ∧ uniform_run classify w)
  ∧ (∀ w, is_substring w p → uniform_run classify w → length w ≤ best).


(** The pairs of [_max_same_char_run]: twice the same character. *)
Definition classify_same (a b : ascii) : option unit :=
  if bool_decide (b = a) then Some () else None.


(** A token with fewer than a fifth of vowels, in whole numbers. *)
Definition few_vowels (t : pystr) : bool :=
  5 * count_in vowels t <? length t.

(** * Properties *)

(** ** The error monad *)

Lemma bind_Ok {A B : Type} (a : A) (f : A → result B) : (Ok a ≫= f) = f a.
Proof. reflexivity. Qed.

Lemma for_each_total {A St : Type} (P : A → Prop) (xs : list A)
    (body : St → A → result St) :
  (∀ st x, P x → ∃ st', body st x = Ok st') →
  Forall P xs →
  ∀ st, ∃ st', for_each xs body st = Ok st'.
Proof.
  intros Hbody Hall. induction Hall as [|x xs Hx _ IH]; intros st.
  - exists st. reflexivity.
  - destruct (Hbody st x Hx) as [st1 Hst1]. simpl. rewrite Hst1. simpl.
    apply IH.
Qed.

Lemma py_index_lt (s : pystr) (i : nat) :
  i < length s → ∃ c, py_index s i = Ok c.
Proof.
  intros Hi. unfold py_index.
  destruct (lookup_lt_is_Some_2 s i Hi) as [c Hc]. rewrite Hc. eauto.
Qed.

Lemma py_range_bounds (a b i : nat) : i ∈ py_range a b → a ≤ i < b.
Proof. unfold py_range. rewrite elem_of_seq. lia. Qed.

Lemma py_truediv_pos (a b : Z) :
  (0 < b)%Z → py_truediv a b = Ok (inject_Z a / inject_Z b)%Q.
Proof.
  intros Hb. unfold py_truediv.
  destruct (Z.eqb_spec b 0) as [->|_]; [lia | reflexivity].
Qed.

(** ** The detectors return *)

Lemma linear_body_total (s : pystr) (st3 : nat * nat * option Z) (i : nat) :
  1 ≤ i < length s → ∃ st3', linear_body s st3 i = Ok st3'.
Proof.
  intros Hi. destruct st3 as [[best cur] last_step]. unfold linear_body.
  destruct (py_index_lt s (i - 1)) as [a ->]; [lia|].
  destruct (py_index_lt s i) as [b ->]; [lia|].
  simpl. destruct (is_linear_step _); eauto.
Qed.

Lemma longest_linear_sequence_total (pw : pystr) :
  ∃ n, _longest_linear_sequence pw = Ok n.
Proof.
  unfold _longest_linear_sequence. case_bool_decide; [eauto|].
  set (s := map _ pw).
  destruct (for_each_total (fun i => 1 ≤ i < length s)
              (py_range 1 (length s)) (linear_body s)) with (st := (1, 1, @None Z))
    as [st3 Hst3].
  - intros st x Hx. by apply linear_body_total.
  - apply Forall_forall. intros i Hi. by apply py_range_bounds.
  - rewrite Hst3. simpl. eauto.
Qed.

Lemma run_body_total (pw : pystr) (st2 : nat * nat) (i : nat) :
  1 ≤ i < length pw → ∃ st2', run_body pw st2 i = Ok st2'.
Proof.
  intros Hi. destruct st2 as [best current]. unfold run_body.
  destruct (py_index_lt pw i) as [a ->]; [lia|].
  destruct (py_index_lt pw (i - 1)) as [b ->]; [lia|].
  simpl. case_bool_decide; eauto.
Qed.

Lemma max_same_char_run_total (pw : pystr) :
  ∃ n, _max_same_char_run pw = Ok n.
Proof.
  unfold _max_same_char_run.
  destruct (for_each_total (fun i => 1 ≤ i < length pw)
              (py_range 1 (length pw)) (run_body pw)) with (st := (1, 1))
    as [st2 Hst2].
  - intros st x Hx. by apply run_body_total.
  - apply Forall_forall. intros i Hi. by apply py_range_bounds.
  - rewrite Hst2. simpl. eauto.
Qed.

Lemma findall_from_nonempty (m : pystr → option nat) (s : pystr) :
  ∀ skip, Forall (fun t => 0 < length t) (findall_from m skip s).
Proof.
  induction s as [|c s IH]; intros skip; simpl; [constructor|].
  destruct skip as [|k]; [|apply IH].
  destruct (m (c :: s)) as [[|n]|]; try apply IH.
  constructor; [simpl; lia | apply IH].
Qed.

Lemma smash_loop_total (tokens : list pystr) :
  Forall (fun t => 0 < length t) tokens → ∃ b, smash_loop tokens = Ok b.
Proof.
  induction 1 as [|t ts Ht _ IH]; simpl; [eauto|].
  rewrite py_truediv_pos by lia. simpl.
  destruct (Qlt_bool _ _); eauto.
Qed.

Lemma looks_like_consonant_smash_total (pw : pystr) :
  ∃ b, _looks_like_consonant_smash pw = Ok b.
Proof. apply smash_loop_total, findall_from_nonempty. Qed.

Lemma has_word_plus_dateish_total (pw : pystr) :
  ∃ b, _has_word_plus_dateish pw = Ok b.
Proof.
  unfold _has_word_plus_dateish.
  destruct (longest_linear_sequence_total pw) as [n ->]. simpl. eauto.
Qed.

(** ** The validator, case by case *)

Lemma validate_details_cases (pw : pystr) :
  let s := strip pw in
  ∃ seq_len max_run smashy wpd,
    _longest_linear_sequence s = Ok seq_len ∧
    _max_same_char_run s = Ok max_run ∧
    _looks_like_consonant_smash s = Ok smashy ∧
    _has_word_plus_dateish s = Ok wpd ∧
    ∃ b info r,
      _validate_details pw = Ok (b, info) ∧
      info !! "reason"%string = Some (VStr r) ∧
      if length s <? 8 then b = false ∧ r = "too_short"%string
      else if has_banned s then b = false ∧ r = "banned_term"%string
      else if Qle_bool (60 # 100) (amb_ratio s)
      then b = false ∧ r = "too_ambiguous"%string
      else if 5 <=? max seq_len (_longest_keyboard_walk s)
      then b = false ∧ r = "too_sequential"%string
      else
        info !! "score"%string
          = Some (VInt (score_of s seq_len max_run smashy wpd)) ∧
        info !! "camel_case"%string
          = Some (VBool (2 <=? _camel_case_segments s)) ∧
        if negb (_looks_like_passphrase s || (2 <=? _camel_case_segments s)
                 || wpd)
        then b = false ∧ r = "no_intent_signal"%string
        else if (3 <=? score_of s seq_len max_run smashy wpd)%Z
        then b = true ∧ r = "accepted"%string
        else b = false ∧ r = "low_score"%string.
Proof.
  intros s.
  destruct (longest_linear_sequence_total s) as [seq_len Hseq].
  destruct (max_same_char_run_total s) as [max_run Hrun].
  destruct (looks_like_consonant_smash_total s) as [smashy Hsmash].
  destruct (has_word_plus_dateish_total s) as [wpd Hwpd].
  exists seq_len, max_run, smashy, wpd. do 4 (split; [assumption|]).
  unfold _validate_details. cbv zeta. fold s. fold (has_banned s).
  destruct (length s <? 8) eqn:Hlen.
  { eexists _, _, _. split; [reflexivity|]. split; [apply lookup_insert_eq|done]. }
  destruct (has_banned s) eqn:Hban.
  { eexists _, _, _. split; [reflexivity|]. split; [apply lookup_insert_eq|done]. }
  rewrite py_truediv_pos by lia. rewrite bind_Ok. fold (amb_ratio s).
  destruct (Qle_bool (60 # 100) (amb_ratio s)) eqn:Hamb.
  { eexists _, _, _. split; [reflexivity|]. split; [apply lookup_insert_eq|done]. }
  rewrite Hseq, bind_Ok.
  destruct (5 <=? max seq_len (_longest_keyboard_walk s)) eqn:Hsq.
  { eexists _, _, _. split; [reflexivity|]. split; [apply lookup_insert_eq|done]. }
  rewrite Hrun, bind_Ok, Hsmash, bind_Ok, Hwpd, bind_Ok.
  fold (score_of s seq_len max_run smashy wpd).
  destruct (negb _) eqn:Hint.
  { eexists _, _, _. split; [reflexivity|]. split; [apply lookup_insert_eq|].
    split; [|split; [|done]]; by simplify_map_eq. }
  destruct (3 <=? score_of s seq_len max_run smashy wpd)%Z eqn:Hsc.
  - eexists _, _, _. split; [reflexivity|]. split; [apply lookup_insert_eq|].
    split; [|split; [|done]]; by simplify_map_eq.
  - eexists _, _, _. split; [reflexivity|]. split; [apply lookup_insert_eq|].
    split; [|split; [|done]]; by simplify_map_eq.
Qed.

(** ** Substrings *)

Lemma startswith_spec (s sub : pystr) :
  startswith s sub = true ↔ ∃ post, s = sub ++ post.
Proof.
  revert s. induction sub as [|x sub IH]; intros s; simpl.
  - split; [eauto | by destruct s].
  - destruct s as [|c s].
    + split; [done | intros [post H]; discriminate].
    + simpl. rewrite andb_true_iff, bool_decide_eq_true, IH. split.
      * intros [-> [post ->]]. eauto.
      * intros [post [= -> ->]]. eauto.
Qed.

Lemma str_in_spec (sub s : pystr) :
  str_in sub s = true ↔ is_substring sub s.
Proof.
  unfold is_substring. induction s as [|c s IH]; cbn [str_in].
  - rewrite orb_false_r, startswith_spec. split.
    + intros [post H]. exists [], post. done.
    + intros [pre [post H]]. symmetry in H.
      apply app_eq_nil in H as [-> H]. exists post. done.
  - rewrite orb_true_iff, startswith_spec, IH. split.
    + intros [[post H] | [pre [post H]]].
      * exists [], post. done.
      * exists (c :: pre), post. by rewrite H.
    + intros [[|c' pre] [post H]].
      * left. exists post. done.
      * right. injection H as -> ->. eauto.
Qed.

Lemma has_banned_spec (s : pystr) :
  has_banned s = true ↔ cond_banned_term s.
Proof.
  unfold has_banned, cond_banned_term, contains_ci.
  rewrite existsb_exists. split.
  - intros [t [Hin Ht]]. exists t. split; [by apply list_elem_of_In|].
    apply str_in_spec in Ht.
    replace (lower t) with t; [done|].
    revert Hin. unfold banned_terms. simpl.
    intros H. repeat (destruct H as [<-|H]; [reflexivity|]). done.
  - intros [t [Hin Ht]]. exists t. split; [by apply list_elem_of_In|].
    apply str_in_spec.
    replace t with (lower t) at 1; [done|].
    apply list_elem_of_In in Hin. revert Hin. unfold banned_terms. simpl.
    intros H. repeat (destruct H as [<-|H]; [reflexivity|]). done.
Qed.

(** ** The ambiguity ratio *)

Lemma amb_ratio_eq (s : pystr) : 1 ≤ length s → amb_ratio s = ambiguous_ratio s.
Proof.
  intros H. unfold amb_ratio, ambiguous_ratio. by rewrite Nat.max_r.
Qed.

Lemma Qle_bool_60 (q : Q) : Qle_bool (60 # 100) q = true ↔ (6 # 10 <= q)%Q.
Proof.
  rewrite Qle_bool_iff.
  assert (E : (60 # 100 == 6 # 10)%Q) by reflexivity. by rewrite E.
Qed.

Lemma Qle_bool_30 (q : Q) : Qle_bool (30 # 100) q = Qle_bool (3 # 10) q.
Proof.
  apply eq_true_iff_eq. rewrite !Qle_bool_iff.
  assert (E : (30 # 100 == 3 # 10)%Q) by reflexivity. by rewrite E.
Qed.

Lemma Qlt_bool_60 (q : Q) : Qlt_bool q (60 # 100) = Qlt_bool q (6 # 10).
Proof.
  unfold Qlt_bool. f_equal.
  apply eq_true_iff_eq. rewrite !Qle_bool_iff.
  assert (E : (60 # 100 == 6 # 10)%Q) by reflexivity. by rewrite E.
Qed.

(** ** The gate, condition by condition *)

Lemma gate_cases (pw : pystr) :
  let s := strip pw in
  ∃ seq_len max_run smashy wpd,
    _longest_linear_sequence s = Ok seq_len ∧
    _max_same_char_run s = Ok max_run ∧
    _looks_like_consonant_smash s = Ok smashy ∧
    _has_word_plus_dateish s = Ok wpd ∧
    ∃ b info r,
      _validate_details pw = Ok (b, info) ∧
      info !! "reason"%string = Some (VStr r) ∧
      ((cond_too_short s ∧ b = false ∧ r = "too_short"%string)
       ∨ (¬ cond_too_short s ∧ cond_banned_term s
          ∧ b = false ∧ r = "banned_term"%string)
       ∨ (¬ cond_too_short s ∧ ¬ cond_banned_term s ∧ cond_too_ambiguous s
          ∧ b = false ∧ r = "too_ambiguous"%string)
       ∨ (¬ cond_too_short s ∧ ¬ cond_banned_term s ∧ ¬ cond_too_ambiguous s
          ∧ cond_too_sequential s
          ∧ b = false ∧ r = "too_sequential"%string)
       ∨ (passes_hard_reject_gate s
          ∧ info !! "score"%string
            = Some (VInt (score_of s seq_len max_run smashy wpd))
          ∧ info !! "camel_case"%string
            = Some (VBool (2 <=? _camel_case_segments s))
          ∧ let intent :=
              _looks_like_passphrase s || (2 <=? _camel_case_segments s)
              || wpd in
            (intent = false ∧ b = false ∧ r = "no_intent_signal"%string)
            ∨ (intent = true
               ∧ (3 ≤ score_of s seq_len max_run smashy wpd)%Z
               ∧ b = true ∧ r = "accepted"%string)
            ∨ (intent = true
               ∧ (score_of s seq_len max_run smashy wpd < 3)%Z
               ∧ b = false ∧ r = "low_score"%string))).
Proof.
  intros s.
  destruct (validate_details_cases pw)
    as (seq_len & max_run & smashy & wpd & Hseq & Hrun & Hsmash & Hwpd
        & b & info & r & Hv & Hr & Hcases).
  fold s in Hseq, Hrun, Hsmash, Hwpd, Hcases.
  exists seq_len, max_run, smashy, wpd. do 4 (split; [assumption|]).
  exists b, info, r. do 2 (split; [assumption|]).
  unfold passes_hard_reject_gate, cond_too_short, cond_too_ambiguous,
    cond_too_sequential.
  destruct (Nat.ltb_spec (length s) 8) as [Hlen|Hlen].
  { left. tauto. }
  right.
  assert (Hnshort : ¬ length s < 8) by lia.
  destruct (has_banned s) eqn:Hban.
  { left. apply has_banned_spec in Hban. tauto. }
  right.
  assert (Hnban : ¬ cond_banned_term s).
  { rewrite <- has_banned_spec, Hban. done. }
  rewrite <- amb_ratio_eq by lia.
  destruct (Qle_bool (60 # 100) (amb_ratio s)) eqn:Hamb.
  { left. apply Qle_bool_60 in Hamb. tauto. }
  right.
  assert (Hnamb : ¬ (6 # 10 <= amb_ratio s)%Q).
  { rewrite <- Qle_bool_60, Hamb. done. }
  destruct (Nat.leb_spec 5 (max seq_len (_longest_keyboard_walk s)))
    as [Hsq|Hsq].
  { left. do 3 (split; [assumption|]). split; [eauto | tauto]. }
  right.
  assert (Hnseq : ¬ (∃ n, _longest_linear_sequence s = Ok n
                         ∧ 5 ≤ max n (_longest_keyboard_walk s))).
  { intros [n [Hn Hle]]. rewrite Hseq in Hn. injection Hn as <-. lia. }
  destruct Hcases as (Hscore & Hcamel & Hcases).
  split; [tauto|]. do 2 (split; [assumption|]). cbv zeta.
  destruct (_ || _ || wpd); cbn [negb] in Hcases.
  - right. destruct (Z.leb_spec 3 (score_of s seq_len max_run smashy wpd)).
    + left. tauto.
    + right. tauto.
  - left. tauto.
Qed.

Lemma passes_gate_b_spec (s : pystr) :
  passes_gate_b s = true → passes_hard_reject_gate s.
Proof.
  unfold passes_gate_b, passes_hard_reject_gate.
  rewrite !andb_true_iff, !negb_true_iff.
  intros [[[Hlen Hban] Hamb] Hseq].
  split; [|split; [|split]].
  - unfold cond_too_short. apply Nat.ltb_ge in Hlen. lia.
  - rewrite <- has_banned_spec. unfold has_banned. by rewrite Hban.
  - unfold cond_too_ambiguous. rewrite <- Qle_bool_iff. by rewrite Hamb.
  - intros [n [Hn Hle]]. rewrite Hn in Hseq.
    apply negb_true_iff, Nat.leb_gt in Hseq. lia.
Qed.

Lemma elem_reason_codes (r : string) :
  r ∈ reason_codes ↔
  r = "too_short"%string ∨ r = "banned_term"%string
  ∨ r = "too_ambiguous"%string ∨ r = "too_sequential"%string
  ∨ r = "no_intent_signal"%string ∨ r = "low_score"%string
  ∨ r = "accepted"%string.
Proof. unfold reason_codes. rewrite !elem_of_cons, elem_of_nil. tauto. Qed.

(** ** Outcomes of the gate *)

Lemma decides_functional (pw : pystr) (b b' : bool) (r r' : string) :
  decides pw b r → decides pw b' r' → b = b' ∧ r = r'.
Proof.
  intros (info & Hv & Hr) (info' & Hv' & Hr').
  rewrite Hv in Hv'. injection Hv' as <- <-.
  rewrite Hr in Hr'. by injection Hr' as <-.
Qed.

Lemma decides_too_short (pw : pystr) :
  length (strip pw) < 8 → decides pw false "too_short".
Proof.
  intros Hlen.
  destruct (gate_cases pw)
    as (seq_len & max_run & smashy & wpd & _ & _ & _ & _
        & b & info & r & Hv & Hr & Hcases).
  unfold passes_hard_reject_gate, cond_too_short in Hcases.
  assert (Hbr : b = false ∧ r = "too_short"%string) by tauto.
  destruct Hbr as [-> ->]. by exists info.
Qed.

Lemma decides_banned_term (pw : pystr) :
  8 ≤ length (strip pw) → cond_banned_term (strip pw) →
  decides pw false "banned_term".
Proof.
  intros Hlen Hban.
  destruct (gate_cases pw)
    as (seq_len & max_run & smashy & wpd & _ & _ & _ & _
        & b & info & r & Hv & Hr & Hcases).
  unfold passes_hard_reject_gate, cond_too_short in Hcases.
  assert (Hbr : b = false ∧ r = "banned_term"%string) by (intuition lia).
  destruct Hbr as [-> ->]. by exists info.
Qed.

Lemma has_separator_eq (s : pystr) :
  existsb (fun sep => char_in sep s) separators = has_separator s.
Proof.
  unfold has_separator, separators. cbn [str list_ascii_of_string existsb].
  repeat (destruct (char_in _ s); cbn [orb]); reflexivity.
Qed.

Lemma if_add_points (c : bool) (x w : Z) :
  (if c then x + w else x)%Z = (x + points w c)%Z.
Proof. destruct c; simpl; lia. Qed.

Lemma if_sub_points (c : bool) (x : Z) (w : positive) :
  (if c then x - Z.pos w else x)%Z = (x + points (Z.neg w) c)%Z.
Proof. destruct c; simpl; lia. Qed.

Lemma score_of_sum (s : pystr) (seq_len max_run : nat) (smashy wpd : bool) :
  8 ≤ length s →
  score_of s seq_len max_run smashy wpd
  = (length_points (length s)
     + variety_points s
     + points 2 (_looks_like_passphrase s)
     + points 2 (2 <=? _camel_case_segments s)%nat
     + points 1 wpd
     + points 1
         (has_separator s
          && (_looks_like_passphrase s || (2 <=? _camel_case_segments s)%nat))
     + points (-3) (4 <=? seq_len)%nat
     + points (-3) (4 <=? _longest_keyboard_walk s)%nat
     + points (-2) (_is_repeated_short_chunk s)
     + points (-2) (4 <=? max_run)%nat
     + points (-2) smashy
     + points (-1)
         (Qle_bool (3 # 10) (ambiguous_ratio s)
          && Qlt_bool (ambiguous_ratio s) (6 # 10)))%Z.
Proof.
  intros Hlen. unfold score_of, score_assembly. cbv zeta.
  rewrite has_separator_eq, amb_ratio_eq, Qle_bool_30, Qlt_bool_60 by lia.
  rewrite !if_add_points, !if_sub_points.
  unfold variety_points, classes_present, length_points. cbn [List.filter].
  destruct (existsb islower s), (existsb isupper s), (existsb isdigit s),
    (existsb (fun c => char_in c punctuation || isspace c) s);
    cbn [Z.b2z length Z.of_nat];
    repeat match goal with
      | |- context [(?a <=? length s)%nat] =>
          destruct (Nat.leb_spec a (length s)); cbn [andb orb]
      | |- context [(length s <=? ?a)%nat] =>
          destruct (Nat.leb_spec (length s) a); cbn [andb orb]
      end;
    lia.
Qed.

(** ** Trimming *)

Lemma lstrip_fixed (s : pystr) :
  lstrip s = s ↔ s = [] ∨ ∃ c s', s = c :: s' ∧ isspace c = false.
Proof.
  destruct s as [|c s]; simpl; [tauto|].
  destruct (isspace c) eqn:Hc.
  - split.
    + intros H. exfalso.
      assert (Hlen : length (lstrip s) ≤ length s).
      { clear. induction s as [|d s IH]; simpl; [lia|].
        destruct (isspace d); simpl; lia. }
      rewrite H in Hlen. simpl in Hlen. lia.
    + intros [[=] | (c' & s' & [= <- <-] & Hc')]. congruence.
  - split; [|done]. intros _. right. eauto.
Qed.

Lemma lstrip_idem (s : pystr) : lstrip (lstrip s) = lstrip s.
Proof.
  induction s as [|c s IH]; simpl; [done|].
  destruct (isspace c) eqn:Hc; [done|]. simpl. by rewrite Hc.
Qed.

Lemma lstrip_snoc (s : pystr) (c : ascii) :
  isspace c = false → lstrip (s ++ [c]) = lstrip s ++ [c].
Proof.
  intros Hc. induction s as [|d s IH]; simpl.
  - by rewrite Hc.
  - destruct (isspace d); done.
Qed.

Lemma rstrip_idem (s : pystr) : rstrip (rstrip s) = rstrip s.
Proof. unfold rstrip. by rewrite rev_involutive, lstrip_idem. Qed.

Lemma lstrip_rstrip_fixed (s : pystr) :
  lstrip s = s → lstrip (rstrip s) = rstrip s.
Proof.
  intros H. apply lstrip_fixed in H as [-> | (c & s' & -> & Hc)]; [done|].
  unfold rstrip. simpl. rewrite lstrip_snoc by done.
  rewrite rev_app_distr. simpl. by rewrite Hc.
Qed.

Lemma strip_idem (s : pystr) : strip (strip s) = strip s.
Proof.
  unfold strip.
  rewrite (lstrip_rstrip_fixed (lstrip s)) by apply lstrip_idem.
  apply rstrip_idem.
Qed.

Lemma validate_details_strip (pw : pystr) :
  _validate_details (strip pw) = _validate_details pw.
Proof. unfold _validate_details. cbv zeta. by rewrite strip_idem. Qed.

(** ** Banned terms survive trimming *)

Lemma isspace_lower_char (c : ascii) : isspace (lower_char c) = isspace c.
Proof. destruct c as [[] [] [] [] [] [] [] []]; vm_compute; reflexivity. Qed.

Lemma lower_lstrip (s : pystr) : lower (lstrip s) = lstrip (lower s).
Proof.
  induction s as [|c s IH]; simpl; [done|].
  rewrite isspace_lower_char. by destruct (isspace c).
Qed.

Lemma lower_strip (s : pystr) : lower (strip s) = strip (lower s).
Proof.
  unfold strip, rstrip, lower.
  rewrite map_rev. fold (lower (lstrip (rev (lstrip s)))).
  rewrite lower_lstrip. unfold lower at 1. rewrite map_rev.
  fold (lower (lstrip s)). by rewrite lower_lstrip.
Qed.

Lemma lstrip_keeps_substring (pre t post : pystr) (c : ascii) (t' : pystr) :
  t = c :: t' → isspace c = false →
  ∃ pre', lstrip (pre ++ t ++ post) = pre' ++ t ++ post.
Proof.
  intros -> Hc. induction pre as [|d pre IH]; simpl.
  - rewrite Hc. by exists [].
  - destruct (isspace d); [apply IH|]. by exists (d :: pre).
Qed.

Lemma rstrip_keeps_substring (pre t post : pystr) (c : ascii) (t' : pystr) :
  rev t = c :: t' → isspace c = false →
  ∃ post', rstrip (pre ++ t ++ post) = pre ++ t ++ post'.
Proof.
  intros Ht Hc. unfold rstrip. rewrite !rev_app_distr, <- app_assoc.
  destruct (lstrip_keeps_substring (rev post) (rev t) (rev pre) c t' Ht Hc)
    as [pre' ->].
  exists (rev pre').
  by rewrite !rev_app_distr, !rev_involutive, <- app_assoc.
Qed.

Lemma banned_term_shape (t : pystr) :
  t ∈ banned_terms →
  lower t = t
  ∧ (∃ c t', t = c :: t' ∧ isspace c = false)
  ∧ (∃ c t', rev t = c :: t' ∧ isspace c = false).
Proof.
  unfold banned_terms. cbn [map]. rewrite !elem_of_cons, elem_of_nil.
  intros H.
  repeat (destruct H as [->|H];
          [split; [reflexivity|];
           split; eexists _, _; split; reflexivity|]).
  done.
Qed.

Lemma contains_ci_strip (s t : pystr) :
  t ∈ banned_terms → contains_ci s t → contains_ci (strip s) t.
Proof.
  intros Hin (pre & post & Hs). unfold contains_ci, is_substring.
  destruct (banned_term_shape t Hin)
    as (Hlow & (c & t1 & Ht1 & Hc) & (d & t2 & Ht2 & Hd)).
  rewrite Hlow in *. rewrite lower_strip, Hs. unfold strip.
  destruct (lstrip_keeps_substring pre t post c t1 Ht1 Hc) as [pre' ->].
  destruct (rstrip_keeps_substring pre' t post d t2 Ht2 Hd) as [post' ->].
  eauto.
Qed.

Lemma contains_ci_check (s t : pystr) :
  str_in (lower t) (lower s) = true → contains_ci s t.
Proof. apply str_in_spec. Qed.

(** ** Years *)

Lemma re_digit_spec (c : ascii) :
  re_digit c = true ↔ (48 ≤ ord c ≤ 57)%N.
Proof.
  unfold re_digit, in_range. rewrite andb_true_iff, !N.leb_le. tauto.
Qed.

Lemma ord_inj (c : ascii) (n : N) : ord c = n → c = ascii_of_N n.
Proof. intros <-. symmetry. apply ascii_N_embedding. Qed.

Lemma is_year_shape (w : pystr) :
  is_year w ↔
  ∃ c d, re_digit c = true ∧ re_digit d = true
         ∧ (w = str "19" ++ [c; d] ∨ w = str "20" ++ [c; d]).
Proof.
  unfold is_year. split.
  - intros (Hlen & Hdig & Hval).
    destruct w as [|a [|b [|c [|d [|e w]]]]]; try discriminate Hlen.
    apply Forall_cons in Hdig as [Ha Hdig].
    apply Forall_cons in Hdig as [Hb Hdig].
    apply Forall_cons in Hdig as [Hc Hdig].
    apply Forall_cons in Hdig as [Hd _].
    exists c, d. do 2 (split; [assumption|]).
    apply re_digit_spec in Ha, Hb, Hc, Hd.
    unfold decimal_value, digit_value in Hval. cbn [foldl] in Hval.
    assert (Hab : (ord a = 49 ∧ ord b = 57)%N ∨ (ord a = 50 ∧ ord b = 48)%N)
      by lia.
    destruct Hab as [[Ea Eb] | [Ea Eb]];
      apply ord_inj in Ea, Eb; subst a b; [left|right]; reflexivity.
  - intros (c & d & Hc & Hd & Hw).
    pose proof Hc as Hc'. pose proof Hd as Hd'.
    apply re_digit_spec in Hc', Hd'.
    destruct Hw as [-> | ->].
    + split; [reflexivity|]. split.
      * repeat constructor; assumption.
      * unfold decimal_value, digit_value. cbn [foldl str list_ascii_of_string app].
        change (ord "1") with 49%N. change (ord "9") with 57%N. lia.
    + split; [reflexivity|]. split.
      * repeat constructor; assumption.
      * unfold decimal_value, digit_value. cbn [foldl str list_ascii_of_string app].
        change (ord "2") with 50%N. change (ord "0") with 48%N. lia.
Qed.

Lemma re_word_digit (c : ascii) : re_digit c = true → re_word c = true.
Proof. unfold re_digit, re_word. by intros ->. Qed.

Lemma lookup_after (pre rest : pystr) (k : nat) :
  (pre ++ rest) !! (length pre + k) = rest !! k.
Proof. rewrite lookup_app_r by lia. f_equal. lia. Qed.

Lemma is_word_at_after (pre rest : pystr) (k : nat) :
  is_word_at (pre ++ rest) (length pre + k) = is_word_at rest k.
Proof. unfold is_word_at. by rewrite lookup_after. Qed.

(** The character before position [length pre] of [pre ++ rest]. *)
Lemma boundary_before (pre rest : pystr) :
  match length pre with
  | 0 => false
  | S q => is_word_at (pre ++ rest) q
  end = false ↔ nonword_end pre.
Proof.
  unfold nonword_end.
  destruct pre as [|e pre _] using rev_ind; [done|].
  rewrite last_snoc, length_app, Nat.add_1_r. unfold is_word_at.
  rewrite <- app_assoc. cbn [app].
  replace (length pre) with (length pre + 0) by lia.
  by rewrite lookup_after.
Qed.

Lemma year_at_decomposed (pre rest : pystr) :
  year_at (pre ++ rest) (length pre) = true ↔
  ∃ w post, rest = w ++ post ∧ is_year w ∧ nonword_end pre
            ∧ nonword_start post.
Proof.
  unfold year_at, word_boundary. rewrite drop_app_length.
  assert (H0 : is_word_at (pre ++ rest) (length pre) = is_word_at rest 0).
  { rewrite <- (is_word_at_after pre rest 0). f_equal. lia. }
  rewrite H0, !lookup_after. clear H0.
  replace (length pre + 4) with (S (length pre + 3)) by lia.
  rewrite (is_word_at_after pre rest 3).
  replace (S (length pre + 3)) with (length pre + 4) by lia.
  rewrite !is_word_at_after.
  pose proof (boundary_before pre rest) as Hpre.
  destruct (match length pre with 0 => false | S q => _ end) eqn:Hb.
  { split.
    - destruct rest as [|x [|y [|c [|d rest]]]]; try (by rewrite ?andb_false_r).
      unfold is_word_at. cbn [lookup list_lookup].
      rewrite !andb_true_iff. intros [[[Hx Hs] Hd] _].
      destruct (re_word x) eqn:Hwx; [discriminate|].
      rewrite orb_true_iff, !startswith_spec in Hs.
      cbn [str list_ascii_of_string app] in Hs.
      destruct Hs as [[post [= -> ->]] | [post [= -> ->]]]; discriminate.
    - intros (w & post & _ & _ & Hn & _). apply Hpre in Hn. discriminate. }
  assert (Hend : nonword_end pre) by by apply Hpre.
  split.
  - destruct rest as [|x [|y [|c [|d post]]]]; try (by rewrite ?andb_false_r).
    unfold is_word_at. cbn [lookup list_lookup].
    rewrite !andb_true_iff. intros [[[_ Hs] [Hc Hd]] Hpost].
    exists [x; y; c; d], post. split; [reflexivity|].
    split; [|split; [assumption|]].
    + apply is_year_shape. exists c, d. do 2 (split; [assumption|]).
      rewrite orb_true_iff, !startswith_spec in Hs.
      cbn [str list_ascii_of_string app] in Hs.
      destruct Hs as [[p [= -> ->]] | [p [= -> ->]]]; [left|right]; reflexivity.
    + rewrite (re_word_digit d Hd) in Hpost. unfold nonword_start.
      destruct post as [|e post]; [done|]. cbn [head].
      cbn [lookup list_lookup] in Hpost. by destruct (re_word e).
  - intros (w & post & -> & Hy & _ & Hpost).
    apply is_year_shape in Hy as (c & d & Hc & Hd & Hw).
    unfold nonword_start in Hpost.
    destruct Hw as [-> | ->]; destruct post as [|e post];
      cbn [str list_ascii_of_string app head] in *;
      unfold is_word_at; cbn [lookup list_lookup];
      rewrite Hc, Hd, (re_word_digit d Hd), ?Hpost; reflexivity.
Qed.

Lemma re_search_year_spec (s : pystr) :
  re_search_year s = true ↔ contains_standalone_year s.
Proof.
  unfold re_search_year, contains_standalone_year.
  rewrite existsb_exists. split.
  - intros (i & Hi & Hy). apply in_seq in Hi.
    assert (Hlen : length (take i s) = i) by (rewrite length_take; lia).
    assert (Hs : s = take i s ++ drop i s) by (by rewrite take_drop).
    revert Hy Hlen Hs. generalize (take i s) (drop i s).
    intros pre rest Hy <- ->.
    apply year_at_decomposed in Hy as (w & post & -> & Hw & Hpre & Hpost).
    exists pre, w, post. done.
  - intros (pre & w & post & -> & Hw & Hpre & Hpost).
    exists (length pre). split.
    + apply in_seq. destruct Hw as [Hlen _]. rewrite !length_app. lia.
    + apply year_at_decomposed. eauto 6.
Qed.

Lemma has_word_token_spec (pw : pystr) :
  (1 <=? length (word_tokens pw)) = true ↔ has_word_token pw.
Proof.
  unfold has_word_token, word_tokens. rewrite Nat.leb_le. split.
  - destruct (List.filter _ _) as [|t ts] eqn:Hf; [simpl; lia|]. intros _.
    assert (Hin : In t (List.filter (fun t => 3 <=? length t)
                          (re_split_nonalpha pw))).
    { rewrite Hf. by left. }
    apply filter_In in Hin as [Hin Hlen].
    exists t. split; [by apply list_elem_of_In | by apply Nat.leb_le].
  - intros (t & Hin & Hlen).
    assert (Hf : In t (List.filter (fun t => 3 <=? length t)
                         (re_split_nonalpha pw))).
    { apply filter_In. split; [by apply list_elem_of_In | by apply Nat.leb_le]. }
    destruct (List.filter _ _); [destruct Hf | simpl; lia].
Qed.

Lemma has_month_spec (s : pystr) :
  existsb (fun m => str_in m s) months = true ↔ contains_month s.
Proof.
  unfold contains_month. rewrite existsb_exists.
  split; intros (m & Hin & Hm); exists m;
    (split; [by apply list_elem_of_In | by apply str_in_spec]).
Qed.

(** ** CamelCase segments *)

Lemma take_while_length (p : ascii → bool) (r : pystr) :
  length (take_while p r) ≤ length r.
Proof. induction r as [|c r IH]; simpl; [lia|]. destruct (p c); simpl; lia. Qed.

Lemma forallb_take (p : ascii → bool) (r : pystr) (m : nat) :
  m ≤ length r →
  forallb p (take m r) = (m <=? length (take_while p r)).
Proof.
  revert m. induction r as [|c r IH]; intros [|m] Hm; simpl in *;
    try reflexivity; try lia.
  destruct (p c); simpl; [apply IH; lia | reflexivity].
Qed.

Lemma is_camel_word_take (c : ascii) (r : pystr) (m : nat) :
  m ≤ length r →
  is_camel_word (take (S m) (c :: r))
  = re_AZ c && (2 <=? m) && (m <=? length (take_while re_az r)).
Proof.
  intros Hm. cbn [take firstn is_camel_word].
  by rewrite length_take, Nat.min_l, forallb_take.
Qed.

Lemma re_az_not_AZ (c : ascii) : re_az c = true → re_AZ c = false.
Proof.
  unfold re_az, re_AZ, in_range.
  rewrite andb_true_iff, andb_false_iff, !N.leb_le, !N.leb_gt. lia.
Qed.

Lemma findall_camel_count (s : pystr) (skip : nat) :
  skip ≤ length (take_while re_az s) →
  length (findall_from match_camel skip s) = count_starts s.
Proof.
  revert skip. induction s as [|c r IH]; intros skip Hskip; [reflexivity|].
  cbn [findall_from count_starts starts_camel].
  destruct skip as [|k].
  - unfold match_camel.
    destruct (re_AZ c && (2 <=? length (take_while re_az r))).
    + cbn [length]. rewrite IH by lia. reflexivity.
    + rewrite IH by lia. reflexivity.
  - cbn [take_while] in Hskip. destruct (re_az c) eqn:Hc; [|simpl in Hskip; lia].
    rewrite (re_az_not_AZ c Hc). cbn [andb]. apply IH.
    cbn [length] in Hskip. lia.
Qed.

Lemma filter_eqb_seq (c : bool) (j0 a n : nat) :
  length (List.filter (fun j => c && (j =? j0)) (seq a n))
  = if c && (a <=? j0) && (j0 <? a + n) then 1 else 0.
Proof.
  destruct c; cbn [andb].
  - revert a. induction n as [|n IH]; intros a; cbn [seq List.filter].
    + destruct (Nat.leb_spec a j0), (Nat.ltb_spec j0 (a + 0)); simpl; lia.
    + destruct (Nat.eqb_spec a j0) as [Heq|Hne]; cbn [length]; rewrite IH;
        repeat match goal with
          | |- context [?x <=? ?y] => destruct (Nat.leb_spec x y)
          | |- context [?x <? ?y] => destruct (Nat.ltb_spec x y)
          end; cbn [andb]; lia.
  - induction (seq a n); simpl; done.
Qed.

Lemma is_camel_segment_at (pre : pystr) (c : ascii) (r : pystr) (j : nat) :
  S (length pre) ≤ j ≤ length (pre ++ c :: r) →
  is_camel_segment (pre ++ c :: r) (length pre) j
  = re_AZ c && (2 <=? length (take_while re_az r))
    && (j =? length pre + 1 + length (take_while re_az r)).
Proof.
  intros Hj. rewrite length_app in Hj. cbn [length] in Hj.
  pose proof (take_while_length re_az r) as Hrun.
  unfold is_camel_segment, slice. rewrite drop_app_length, length_app.
  cbn [length].
  replace (j - length pre) with (S (j - length pre - 1)) by lia.
  replace (S j - length pre) with (S (S (j - length pre - 1))) by lia.
  rewrite is_camel_word_take by lia.
  destruct (Nat.ltb_spec j (length pre + S (length r))) as [Hlt|Hge];
    cbn [andb negb].
  - rewrite is_camel_word_take by lia.
    destruct (re_AZ c); cbn [andb negb]; [|reflexivity].
    destruct (Nat.leb_spec 2 (j - length pre - 1)),
      (Nat.leb_spec (j - length pre - 1) (length (take_while re_az r))),
      (Nat.leb_spec 2 (S (j - length pre - 1))),
      (Nat.leb_spec (S (j - length pre - 1)) (length (take_while re_az r))),
      (Nat.leb_spec 2 (length (take_while re_az r))),
      (Nat.eqb_spec j (length pre + 1 + length (take_while re_az r)));
      cbn [andb negb]; try reflexivity; lia.
  - destruct (re_AZ c); cbn [andb negb]; [|reflexivity].
    destruct (Nat.leb_spec 2 (j - length pre - 1)),
      (Nat.leb_spec (j - length pre - 1) (length (take_while re_az r))),
      (Nat.leb_spec 2 (length (take_while re_az r))),
      (Nat.eqb_spec j (length pre + 1 + length (take_while re_az r)));
      cbn [andb negb]; try reflexivity; lia.
Qed.

Lemma segments_at_count (pre : pystr) (c : ascii) (r : pystr) :
  length
    (List.filter (is_camel_segment (pre ++ c :: r) (length pre))
       (seq (S (length pre)) (length (pre ++ c :: r) - length pre)))
  = if starts_camel (c :: r) then 1 else 0.
Proof.
  pose proof (take_while_length re_az r) as Hrun.
  rewrite (filter_ext_in _
    (fun j => (re_AZ c && (2 <=? length (take_while re_az r)))
              && (j =? length pre + 1 + length (take_while re_az r)))).
  - rewrite filter_eqb_seq. cbn [starts_camel].
    rewrite length_app. cbn [length].
    destruct (re_AZ c && (2 <=? length (take_while re_az r))); [|reflexivity].
    cbn [andb].
    destruct (Nat.leb_spec (S (length pre))
                (length pre + 1 + length (take_while re_az r))); [|lia].
    destruct (Nat.ltb_spec (length pre + 1 + length (take_while re_az r))
                (S (length pre) + (length pre + S (length r) - length pre)));
      [reflexivity | lia].
  - intros j Hj. apply in_seq in Hj. apply is_camel_segment_at.
    rewrite length_app in *. cbn [length] in *. lia.
Qed.

Lemma camel_segments_from (pre s : pystr) :
  length
    (flat_map
       (fun i =>
          map (pair i)
            (List.filter (is_camel_segment (pre ++ s) i)
               (seq (S i) (length (pre ++ s) - i))))
       (seq (length pre) (length s)))
  = count_starts s.
Proof.
  revert pre. induction s as [|c r IH]; intros pre; [reflexivity|].
  cbn [length seq flat_map count_starts].
  rewrite length_app, length_map, segments_at_count. f_equal.
  specialize (IH (pre ++ [c])).
  replace (length (pre ++ [c])) with (S (length pre)) in IH
    by (rewrite length_app; simpl; lia).
  rewrite <- app_assoc in IH. exact IH.
Qed.

Lemma camel_case_segments_count (s : pystr) :
  _camel_case_segments s = length (camel_segments s).
Proof.
  unfold _camel_case_segments, re_findall, camel_segments.
  rewrite findall_camel_count by lia.
  symmetry. apply (camel_segments_from [] s).
Qed.

(** * The claims *)

(** C1, as the code has it.  Every input whose trimmed form has at least 8
    characters and which contains one of the ten banned terms, case
    ignored, is rejected with the reason code banned_term. *)
Theorem banned_term_rejected (pw t : pystr) :
  t ∈ banned_terms →
  contains_ci pw t →
  8 ≤ length (strip pw) →
  decides pw false "banned_term".
Proof.
  intros Hin Hci Hlen. apply decides_banned_term; [assumption|].
  exists t. split; [assumption|]. by apply contains_ci_strip.
Qed.

Lemma banned_term_rejected_witness :
  str "dragon" ∈ banned_terms
  ∧ contains_ci (str "  My-DRAGON-99 ") (str "dragon")
  ∧ 8 ≤ length (strip (str "  My-DRAGON-99 "))
  ∧ decides (str "  My-DRAGON-99 ") false "banned_term".
Proof.
  assert (H1 : str "dragon" ∈ banned_terms).
  { apply list_elem_of_In. vm_compute. tauto. }
  assert (H2 : contains_ci (str "  My-DRAGON-99 ") (str "dragon")).
  { apply contains_ci_check. vm_compute. reflexivity. }
  assert (H3 : 8 ≤ length (strip (str "  My-DRAGON-99 "))).
  { vm_compute. lia. }
  repeat split; try assumption.
  exact (banned_term_rejected _ _ H1 H2 H3).
Defined.

(** The claim as worded ("regardless of the string's length") fails on a
    banned term that is itself shorter than 8 characters: "admin" is
    rejected with too_short. *)
Lemma banned_term_regardless_of_length_fails :
  ¬ (∀ pw t : pystr,
       t ∈ banned_terms → contains_ci pw t →
       ∃ b, decides pw b "banned_term").
Proof.
  intros H.
  destruct (H (str "admin") (str "admin")) as [b Hb].
  - apply list_elem_of_In. vm_compute. tauto.
  - apply contains_ci_check. vm_compute. reflexivity.
  - assert (Hs : decides (str "admin") false "too_short").
    { apply decides_too_short. vm_compute. lia. }
    destruct (decides_functional _ _ _ _ _ Hb Hs) as [_ [=]].
Qed.

(** C2.  The hard-reject gate takes its four conditions in the order
    too_short, banned_term, too_ambiguous, too_sequential, and the first
    one that holds decides: whatever later conditions hold as well, the
    validator rejects with the reason code of the first. *)
Theorem hard_reject_first_match_wins (pw : pystr) :
  let s := strip pw in
  ∃ b r,
    decides pw b r
    ∧ (cond_too_short s → r = "too_short"%string)
    ∧ (¬ cond_too_short s → cond_banned_term s → r = "banned_term"%string)
    ∧ (¬ cond_too_short s → ¬ cond_banned_term s → cond_too_ambiguous s →
       r = "too_ambiguous"%string)
    ∧ (¬ cond_too_short s → ¬ cond_banned_term s → ¬ cond_too_ambiguous s →
       cond_too_sequential s → r = "too_sequential"%string)
    ∧ (cond_too_short s ∨ cond_banned_term s ∨ cond_too_ambiguous s
       ∨ cond_too_sequential s → b = false).
Proof.
  intros s.
  destruct (gate_cases pw)
    as (seq_len & max_run & smashy & wpd & _ & _ & _ & _
        & b & info & r & Hv & Hr & Hcases).
  fold s in Hcases. exists b, r. split; [by exists info|].
  unfold passes_hard_reject_gate in Hcases. tauto.
Qed.

Lemma hard_reject_first_match_wins_witness :
  ¬ cond_too_short (strip (str "0O0login1l"))
  ∧ cond_banned_term (strip (str "0O0login1l"))
  ∧ cond_too_ambiguous (strip (str "0O0login1l"))
  ∧ decides (str "0O0login1l") false "banned_term".
Proof.
  assert (H1 : ¬ cond_too_short (strip (str "0O0login1l"))).
  { unfold cond_too_short. vm_compute. lia. }
  assert (H2 : cond_banned_term (strip (str "0O0login1l"))).
  { apply has_banned_spec. vm_compute. reflexivity. }
  assert (H3 : cond_too_ambiguous (strip (str "0O0login1l"))).
  { apply Qle_bool_iff. vm_compute. reflexivity. }
  do 3 (split; [assumption|]).
  pose proof (hard_reject_first_match_wins (str "0O0login1l")) as H.
  cbv zeta in H. destruct H as (b & r & Hd & _ & Hb & _ & _ & Hf).
  rewrite (Hb H1 H2), (Hf (or_intror (or_introl H2))) in Hd. exact Hd.
Defined.

(** C3.  For a candidate that passes the hard-reject gate: without any of
    the three intent signals (passphrase-like, CamelCase, word-plus-dateish)
    it is rejected with no_intent_signal, whatever its score; with one, it
    is accepted (reason accepted) exactly when the score is at least 3 and
    rejected with low_score when the score is below 3. *)
Theorem decision_gate (pw : pystr) :
  let s := strip pw in
  passes_hard_reject_gate s →
  ∃ b r info score wpd,
    _has_word_plus_dateish s = Ok wpd
    ∧ _validate_details pw = Ok (b, info)
    ∧ info !! "reason"%string = Some (VStr r)
    ∧ info !! "score"%string = Some (VInt score)
    ∧ let intent :=
        _looks_like_passphrase s = true ∨ 2 ≤ _camel_case_segments s
        ∨ wpd = true in
      (¬ intent → b = false ∧ r = "no_intent_signal"%string)
      ∧ (intent →
         (b = true ↔ (3 ≤ score)%Z)
         ∧ (r = "accepted"%string ↔ (3 ≤ score)%Z)
         ∧ ((score < 3)%Z → b = false ∧ r = "low_score"%string)).
Proof.
  intros s Hpass.
  destruct (gate_cases pw)
    as (seq_len & max_run & smashy & wpd & _ & _ & _ & Hwpd
        & b & info & r & Hv & Hr & Hcases).
  fold s in Hwpd, Hcases.
  exists b, r, info, (score_of s seq_len max_run smashy wpd), wpd.
  unfold passes_hard_reject_gate in Hpass.
  destruct Hcases as [?|[?|[?|[?|(_ & Hscore & _ & Hcases)]]]]; try tauto.
  do 4 (split; [assumption|]).
  assert (Hintent :
    _looks_like_passphrase s || (2 <=? _camel_case_segments s) || wpd = true
    ↔ _looks_like_passphrase s = true ∨ 2 ≤ _camel_case_segments s
      ∨ wpd = true).
  { rewrite !orb_true_iff, Nat.leb_le. tauto. }
  cbv zeta in Hcases. cbv zeta. rewrite <- Hintent.
  destruct Hcases as [(Hi & -> & ->) | [(Hi & Hs & -> & ->) | (Hi & Hs & -> & ->)]];
    rewrite Hi.
  - split; [done|]. intros [=].
  - split; [intros []; reflexivity|]. intros _. repeat split; try done; lia.
  - split; [intros []; reflexivity|]. intros _.
    repeat split; try done; try lia; intros [=].
Qed.

Lemma decision_gate_witness :
  passes_hard_reject_gate (strip (str "BlueParrot!42"))
  ∧ ∃ b r info score wpd,
      _has_word_plus_dateish (strip (str "BlueParrot!42")) = Ok wpd
      ∧ _validate_details (str "BlueParrot!42") = Ok (b, info)
      ∧ info !! "reason"%string = Some (VStr r)
      ∧ info !! "score"%string = Some (VInt score)
      ∧ let intent :=
          _looks_like_passphrase (strip (str "BlueParrot!42")) = true
          ∨ 2 ≤ _camel_case_segments (strip (str "BlueParrot!42"))
          ∨ wpd = true in
        (¬ intent → b = false ∧ r = "no_intent_signal"%string)
        ∧ (intent →
           (b = true ↔ (3 ≤ score)%Z)
           ∧ (r = "accepted"%string ↔ (3 ≤ score)%Z)
           ∧ ((score < 3)%Z → b = false ∧ r = "low_score"%string)).
Proof.
  assert (H : passes_hard_reject_gate (strip (str "BlueParrot!42"))).
  { apply passes_gate_b_spec. vm_compute. reflexivity. }
  split; [exact H|]. exact (decision_gate (str "BlueParrot!42") H).
Defined.

(** C4.  For a candidate that passes the hard-reject gate, the score in
    the diagnostic record is the sum of the length points (8-9: 1,
    10-11: 2, 12-15: 3, 16 and more: 4), the variety points
    min(3, max(0, classes present - 1)), +2 if passphrase-like, +2 if
    CamelCase, +1 if word-plus-dateish, +1 if a separator is present and
    passphrase-like or CamelCase holds, -3 if the longest linear sequence
    is at least 4, -3 if the longest keyboard walk is at least 4, -2 if
    repeated-short-chunk, -2 if the longest same-character run is at least
    4, -2 if consonant-smash, and -1 if the ambiguous ratio is in
    [0.30, 0.60). *)
Theorem score_is_sum_of_components (pw : pystr) :
  let s := strip pw in
  passes_hard_reject_gate s →
  ∃ seq_len max_run smashy wpd b info,
    _longest_linear_sequence s = Ok seq_len
    ∧ _max_same_char_run s = Ok max_run
    ∧ _looks_like_consonant_smash s = Ok smashy
    ∧ _has_word_plus_dateish s = Ok wpd
    ∧ _validate_details pw = Ok (b, info)
    ∧ info !! "score"%string
      = Some (VInt
          (length_points (length s)
           + variety_points s
           + points 2 (_looks_like_passphrase s)
           + points 2 (2 <=? _camel_case_segments s)%nat
           + points 1 wpd
           + points 1
               (has_separator s
                && (_looks_like_passphrase s
                    || (2 <=? _camel_case_segments s)%nat))
           + points (-3) (4 <=? seq_len)%nat
           + points (-3) (4 <=? _longest_keyboard_walk s)%nat
           + points (-2) (_is_repeated_short_chunk s)
           + points (-2) (4 <=? max_run)%nat
           + points (-2) smashy
           + points (-1)
               (Qle_bool (3 # 10) (ambiguous_ratio s)
                && Qlt_bool (ambiguous_ratio s) (6 # 10)))%Z).
Proof.
  intros s Hpass.
  destruct (gate_cases pw)
    as (seq_len & max_run & smashy & wpd & Hseq & Hrun & Hsmash & Hwpd
        & b & info & r & Hv & Hr & Hcases).
  fold s in Hseq, Hrun, Hsmash, Hwpd, Hcases.
  exists seq_len, max_run, smashy, wpd, b, info.
  do 5 (split; [assumption|]).
  pose proof Hpass as Hpass'. unfold passes_hard_reject_gate in Hpass'.
  destruct Hcases as [?|[?|[?|[?|(_ & Hscore & _)]]]]; try tauto.
  rewrite Hscore, score_of_sum; [reflexivity|].
  unfold cond_too_short in Hpass'. lia.
Qed.

Lemma score_is_sum_of_components_witness :
  passes_hard_reject_gate (strip (str "BlueParrot!42"))
  ∧ ∃ b info,
      _validate_details (str "BlueParrot!42") = Ok (b, info)
      ∧ info !! "score"%string = Some (VInt 7).
Proof.
  assert (H : passes_hard_reject_gate (strip (str "BlueParrot!42"))).
  { apply passes_gate_b_spec. vm_compute. reflexivity. }
  split; [exact H|].
  pose proof (score_is_sum_of_components (str "BlueParrot!42") H) as Hs.
  cbv zeta in Hs.
  destruct Hs as (seq_len & max_run & smashy & wpd & b & info
                  & Hseq & Hrun & Hsmash & Hwpd & Hv & Hscore).
  exists b, info. split; [exact Hv|]. rewrite Hscore.
  vm_compute in Hseq, Hrun, Hsmash, Hwpd.
  injection Hseq as <-. injection Hrun as <-. injection Hsmash as <-.
  injection Hwpd as <-. vm_compute. reflexivity.
Defined.

(** C5.  The candidate "qwerty12345" is rejected, and the reason code is
    banned_term: the banned term "qwerty" is found before the sequences
    are looked at. *)
Theorem qwerty12345_banned_term :
  decides (str "qwerty12345") false "banned_term".
Proof.
  apply decides_banned_term.
  - vm_compute. lia.
  - apply has_banned_spec. vm_compute. reflexivity.
Qed.

(** The sequence test is never reached on "qwerty12345": too_sequential
    is not the reason code reported. *)
Lemma qwerty12345_not_too_sequential :
  ¬ ∃ b, decides (str "qwerty12345") b "too_sequential".
Proof.
  intros [b H].
  assert (H' : decides (str "qwerty12345") false "banned_term").
  { apply decides_banned_term.
    - vm_compute. lia.
    - apply has_banned_spec. vm_compute. reflexivity. }
  destruct (decides_functional _ _ _ _ _ H H') as [_ [=]].
Qed.

(** C6, as the code has it.  The word-plus-dateish detector returns, and
    it returns true exactly when (a) splitting on the runs of non-letters
    leaves a token of at least three letters, (b) the lowercased candidate
    contains a 4-digit year in 1900-2099 that stands alone (no letter,
    digit or underscore directly before or after it) or one of the twelve
    3-letter month abbreviations, and (c) the longest linear sequence is
    below 4. *)
Theorem word_plus_dateish_iff (pw : pystr) :
  ∃ b,
    _has_word_plus_dateish pw = Ok b
    ∧ (b = true ↔
       has_word_token pw
       ∧ (contains_standalone_year (lower pw) ∨ contains_month (lower pw))
       ∧ ∃ n, _longest_linear_sequence pw = Ok n ∧ n < 4).
Proof.
  unfold _has_word_plus_dateish.
  destruct (longest_linear_sequence_total pw) as [n Hn].
  rewrite Hn, bind_Ok. eexists. split; [reflexivity|].
  rewrite !andb_true_iff, orb_true_iff, has_word_token_spec,
    re_search_year_spec, has_month_spec, Nat.ltb_lt.
  split.
  - intros [[Hw Hd] Hlt]. eauto.
  - intros (Hw & Hd & m & [= <-] & Hlt). tauto.
Qed.

(** The claim as worded asks only for the year to occur as a substring;
    the pattern of the source is anchored with [\b] on both sides, so a
    year written directly after a word does not count: "hello2024" has a
    word, contains 2024, has no linear sequence, and the detector returns
    false. *)
Lemma word_plus_dateish_year_after_word :
  ¬ (∀ pw : pystr,
       ∃ b,
         _has_word_plus_dateish pw = Ok b
         ∧ (b = true ↔
            has_word_token pw
            ∧ (contains_year (lower pw) ∨ contains_month (lower pw))
            ∧ ∃ n, _longest_linear_sequence pw = Ok n ∧ n < 4)).
Proof.
  intros H. destruct (H (str "hello2024")) as (b & Hb & Hiff).
  vm_compute in Hb. injection Hb as <-.
  assert (Hbad : false = true); [|discriminate].
  apply Hiff. split; [|split].
  - exists (str "hello"). split; [|simpl; lia].
    apply list_elem_of_In. vm_compute. tauto.
  - left. exists (str "2024"). split.
    + apply is_year_shape. exists "2"%char, "4"%char.
      split; [reflexivity|]. split; [reflexivity|]. by right.
    + exists (str "hello"), []. reflexivity.
  - exists 1. split; [vm_compute; reflexivity | lia].
Qed.

(** C7.  On every candidate the CamelCase segment count is the number of
    substrings that are one uppercase letter followed by two or more
    lowercase letters (each taken with all the lowercase letters that
    follow it), and the CamelCase flag, which the validator records and
    uses for the intent signal and the score, is true exactly when that
    number is at least 2. *)
Theorem camel_case_count_and_flag (pw : pystr) :
  _camel_case_segments pw = length (camel_segments pw)
  ∧ ((2 <=? _camel_case_segments pw) = true ↔ 2 ≤ length (camel_segments pw))
  ∧ (passes_hard_reject_gate (strip pw) →
     ∃ b info flag,
       _validate_details pw = Ok (b, info)
       ∧ info !! "camel_case"%string = Some (VBool flag)
       ∧ (flag = true ↔ 2 ≤ length (camel_segments (strip pw)))).
Proof.
  split; [apply camel_case_segments_count|]. split.
  - by rewrite Nat.leb_le, camel_case_segments_count.
  - intros Hpass.
    destruct (gate_cases pw)
      as (seq_len & max_run & smashy & wpd & _ & _ & _ & _
          & b & info & r & Hv & Hr & Hcases).
    unfold passes_hard_reject_gate in Hpass.
    destruct Hcases as [?|[?|[?|[?|(_ & _ & Hcamel & _)]]]]; try tauto.
    exists b, info, (2 <=? _camel_case_segments (strip pw)).
    do 2 (split; [assumption|]).
    by rewrite Nat.leb_le, camel_case_segments_count.
Qed.

Lemma camel_case_count_and_flag_witness :
  passes_hard_reject_gate (strip (str "BlueParrot!42"))
  ∧ camel_segments (str "BlueParrot!42") = [(0, 4); (4, 10)]
  ∧ _camel_case_segments (str "BlueParrot!42") = 2
  ∧ ∃ b info flag,
      _validate_details (str "BlueParrot!42") = Ok (b, info)
      ∧ info !! "camel_case"%string = Some (VBool flag)
      ∧ (flag = true
         ↔ 2 ≤ length (camel_segments (strip (str "BlueParrot!42")))).
Proof.
  assert (H : passes_hard_reject_gate (strip (str "BlueParrot!42"))).
  { apply passes_gate_b_spec. vm_compute. reflexivity. }
  split; [exact H|]. split; [vm_compute; reflexivity|].
  destruct (camel_case_count_and_flag (str "BlueParrot!42"))
    as (Hcount & _ & Hflag).
  split; [rewrite Hcount; vm_compute; reflexivity | exact (Hflag H)].
Defined.

(** C8.  The validator is total: on every string, the empty one included,
    both entry points return, with a boolean and one of the seven reason
    codes; the ambiguous-ratio division and every detector return on every
    string. *)
Theorem validator_total (pw : pystr) :
  (∃ b r,
     decides pw b r ∧ is_valid_password pw = Ok b ∧ r ∈ reason_codes)
  ∧ (∃ q,
       py_truediv (Z.of_nat (count_in ambiguous_set pw))
         (Z.of_nat (max 1 (length pw))) = Ok q)
  ∧ (∃ n, _longest_linear_sequence pw = Ok n)
  ∧ (∃ n, _max_same_char_run pw = Ok n)
  ∧ (∃ b, _looks_like_consonant_smash pw = Ok b)
  ∧ (∃ b, _has_word_plus_dateish pw = Ok b).
Proof.
  split; [|split; [|split; [|split; [|split]]]].
  - destruct (gate_cases pw)
      as (seq_len & max_run & smashy & wpd & _ & _ & _ & _
          & b & info & r & Hv & Hr & Hcases).
    exists b, r. split; [by exists info|]. split.
    + unfold is_valid_password. rewrite Hv. reflexivity.
    + apply elem_reason_codes. cbv zeta in Hcases. tauto.
  - rewrite py_truediv_pos by lia. eauto.
  - apply longest_linear_sequence_total.
  - apply max_same_char_run_total.
  - apply looks_like_consonant_smash_total.
  - apply has_word_plus_dateish_total.
Qed.

(** C9.  The decision does not depend on surrounding whitespace: the
    validator gives the same answer on an input and on the input trimmed;
    an input of length at least 8 whose trimmed length is below 8 is
    rejected with too_short. *)
Theorem decision_invariant_under_strip (pw : pystr) :
  is_valid_password pw = is_valid_password (strip pw)
  ∧ _validate_details pw = _validate_details (strip pw)
  ∧ (8 ≤ length pw → length (strip pw) < 8 →
     decides pw false "too_short" ∧ is_valid_password pw = Ok false).
Proof.
  split; [|split].
  - unfold is_valid_password. by rewrite validate_details_strip.
  - by rewrite validate_details_strip.
  - intros _ Hlen. pose proof (decides_too_short pw Hlen) as Hd.
    split; [assumption|]. destruct Hd as (info & Hv & _).
    unfold is_valid_password. by rewrite Hv.
Qed.

Lemma decision_invariant_under_strip_witness :
  8 ≤ length (str "  BlueSky   ")
  ∧ length (strip (str "  BlueSky   ")) < 8
  ∧ decides (str "  BlueSky   ") false "too_short"
  ∧ is_valid_password (str "  BlueSky   ") = Ok false.
Proof.
  assert (H8 : 8 ≤ length (str "  BlueSky   ")) by (vm_compute; lia).
  assert (H7 : length (strip (str "  BlueSky   ")) < 8) by (vm_compute; lia).
  split; [exact H8|]. split; [exact H7|].
  exact (proj2 (proj2 (decision_invariant_under_strip (str "  BlueSky   ")))
           H8 H7).
Defined.

(** C10.  On every input the detailed validator returns a boolean and a
    record whose reason entry is one of the seven reason codes, and the
    boolean is True exactly when that reason code is accepted. *)
Theorem accepted_iff_reason_accepted (pw : pystr) :
  ∃ b info r,
    _validate_details pw = Ok (b, info)
    ∧ info !! "reason"%string = Some (VStr r)
    ∧ r ∈ reason_codes
    ∧ (b = true ↔ r = "accepted"%string).
Proof.
  destruct (gate_cases pw)
    as (seq_len & max_run & smashy & wpd & _ & _ & _ & _
        & b & info & r & Hv & Hr & Hcases).
  exists b, info, r. do 2 (split; [assumption|]). cbv zeta in Hcases.
  split; [apply elem_reason_codes; tauto|].
  destruct Hcases as
    [(_ & -> & ->) | [(_ & _ & -> & ->) | [(_ & _ & _ & -> & ->)
    | [(_ & _ & _ & _ & -> & ->) | (_ & _ & _ & [(_ & -> & ->)
    | [(_ & _ & -> & ->) | (_ & _ & -> & ->)]])]]]]; done.
Qed.

(** * Beyond the claims: the detectors and the record *)

(** ** Tokens of letters *)

Lemma split_from_cons_alpha (b : bool) (c : ascii) (s : pystr) :
  re_AZaz c = true →
  ∃ t ts, split_from false s = t :: ts ∧ split_from b (c :: s) = (c :: t) :: ts.
Proof.
  intros Hc. cbn [split_from]. rewrite Hc.
  destruct (split_from false s) as [|t ts] eqn:Hs.
  - exfalso. clear -Hs. revert Hs. generalize false.
    induction s as [|d s IH]; intros b; cbn [split_from]; [done|].
    destruct (re_AZaz d).
    + by destruct (split_from false s).
    + destruct b; [apply IH | done].
  - eauto.
Qed.

Lemma split_from_alpha_prefix (b : bool) (w post : pystr) :
  forallb re_AZaz w = true → w ≠ [] →
  ∃ t ts, split_from b (w ++ post) = (w ++ t) :: ts.
Proof.
  revert b. induction w as [|c w IH]; intros b Hw Hne; [done|].
  cbn [forallb] in Hw. apply andb_true_iff in Hw as [Hc Hw].
  rewrite <- app_comm_cons.
  destruct (split_from_cons_alpha b c (w ++ post) Hc) as (t & ts & Ht & ->).
  destruct w as [|d w].
  - exists t, ts. reflexivity.
  - destruct (IH false Hw) as (t' & ts' & Ht'); [done|].
    rewrite Ht' in Ht. injection Ht as <- <-. eauto.
Qed.

Lemma split_from_token_covers (b : bool) (pre w post : pystr) :
  forallb re_AZaz w = true → w ≠ [] →
  ∃ t, t ∈ split_from b (pre ++ w ++ post) ∧ length w ≤ length t.
Proof.
  intros Hw Hne. revert b. induction pre as [|c pre IH]; intros b.
  - cbn [app].
    destruct (split_from_alpha_prefix b w post Hw Hne) as (t & ts & ->).
    exists (w ++ t). split; [by left|]. rewrite length_app. lia.
  - cbn [app split_from]. destruct (re_AZaz c).
    + destruct (IH false) as (t & Hin & Hlen).
      destruct (split_from false (pre ++ w ++ post)) as [|t1 ts1];
        [by apply elem_of_nil in Hin|].
      apply elem_of_cons in Hin as [-> | Hin].
      * exists (c :: t1). split; [by left | simpl; lia].
      * exists t. split; [by right | done].
    + destruct (IH true) as (t & Hin & Hlen).
      destruct b; [eauto|]. exists t. split; [by right | done].
Qed.

Lemma word_token_of_substring (s w : pystr) :
  is_substring w s → forallb re_AZaz w = true → 3 ≤ length w →
  has_word_token s.
Proof.
  intros (pre & post & ->) Hw Hlen.
  destruct (split_from_token_covers false pre w post Hw) as (t & Hin & Ht).
  - destruct w; [simpl in Hlen; lia | done].
  - exists t. split; [exact Hin | lia].
Qed.

(** ** Runs of adjacent characters *)

Lemma adjacent_app_l (R : ascii → ascii → Prop) (u v : pystr) :
  adjacent R (u ++ v) → adjacent R u.
Proof.
  induction u as [|a [|b u] IH]; try done.
  cbn [app adjacent]. intros [Hab H]. split; [done|]. by apply IH.
Qed.

Lemma adjacent_app_r (R : ascii → ascii → Prop) (u v : pystr) :
  adjacent R (u ++ v) → adjacent R v.
Proof.
  induction u as [|a u IH]; [done|].
  cbn [app]. intros H. apply IH.
  destruct (u ++ v); [done|]. by destruct H.
Qed.

Lemma adjacent_snoc (R : ascii → ascii → Prop) (w : pystr) (a c : ascii) :
  adjacent R (w ++ [a; c]) ↔ adjacent R (w ++ [a]) ∧ R a c.
Proof.
  induction w as [|x [|y w] IH]; cbn [app adjacent] in *; tauto.
Qed.

Lemma substring_snoc (w p : pystr) (c : ascii) :
  is_substring w (p ++ [c]) → is_substring w p ∨ w `suffix_of` (p ++ [c]).
Proof.
  intros (pre & post & H).
  destruct post as [|x post _] using rev_ind.
  - right. exists pre. by rewrite app_nil_r in H.
  - left. rewrite !app_assoc in H. apply app_inj_tail in H as [-> _].
    exists pre, post. by rewrite app_assoc.
Qed.

Lemma substring_app_l (w p k : pystr) :
  is_substring w p → is_substring w (p ++ k).
Proof.
  intros (pre & post & ->). exists pre, (post ++ k).
  by rewrite <- !app_assoc.
Qed.

Lemma suffix_substring (w p : pystr) : w `suffix_of` p → is_substring w p.
Proof. intros [k ->]. exists k, []. by rewrite app_nil_r. Qed.

(** A uniform run without its last character is a uniform run. *)
Lemma uniform_run_init {mode : Type} (classify : ascii → ascii → option mode)
    (w : pystr) (c : ascii) :
  w ≠ [] → uniform_run classify (w ++ [c]) → uniform_run classify w.
Proof.
  intros Hne [_ [Hlen | [m Hm]]].
  - rewrite length_app in Hlen. simpl in Hlen. destruct w; [done|].
    simpl in Hlen. lia.
  - split; [done|]. right. exists m. by apply adjacent_app_l in Hm.
Qed.

(** The last pair of a uniform run of two or more characters. *)
Lemma uniform_run_last {mode : Type} (classify : ascii → ascii → option mode)
    (w : pystr) (a c : ascii) :
  uniform_run classify (w ++ [a; c]) →
  ∃ m, classify a c = Some m
       ∧ adjacent (fun a b => classify a b = Some m) (w ++ [a]).
Proof.
  intros [_ [Hlen | [m Hm]]].
  - rewrite length_app in Hlen. simpl in Hlen. lia.
  - exists m. apply adjacent_snoc in Hm. tauto.
Qed.

Lemma scan_inv_init {mode : Type} (classify : ascii → ascii → option mode)
    (c0 : ascii) :
  scan_inv classify [c0] (1, 1, None).
Proof.
  unfold scan_inv. split; [|split; [|split; [|split; [|split]]]].
  - exists [], [c0]. done.
  - intros p1 a b H. apply (f_equal length) in H.
    rewrite length_app in H. simpl in H. lia.
  - intros w Hw _. apply suffix_length in Hw. simpl in Hw. done.
  - done.
  - exists [c0]. split; [by exists [], []|]. split; [done|].
    split; [done | by left].
  - intros w (pre & post & H) _. apply (f_equal length) in H.
    rewrite !length_app in H. simpl in H. lia.
Qed.

Lemma snoc_eq_snoc2 (p0 p1 : pystr) (prev c a b : ascii) :
  (p0 ++ [prev]) ++ [c] = p1 ++ [a; b] → a = prev ∧ b = c ∧ p1 = p0.
Proof.
  intros H. change [a; b] with ([a] ++ [b]) in H. rewrite app_assoc in H.
  apply app_inj_tail in H as [H ->]. apply app_inj_tail in H as [-> ->].
  done.
Qed.

Lemma uniform_suffix_snoc {mode : Type}
    (classify : ascii → ascii → option mode)
    (p0 w : pystr) (prev c : ascii) :
  w `suffix_of` (p0 ++ [prev]) ++ [c] → uniform_run classify w →
  w = [c]
  ∨ ∃ w0 m,
      w = w0 ++ [prev; c]
      ∧ (w0 ++ [prev]) `suffix_of` (p0 ++ [prev])
      ∧ classify prev c = Some m
      ∧ adjacent (fun a b => classify a b = Some m) (w0 ++ [prev]).
Proof.
  intros Hsuf Hun.
  destruct w as [|x w1 _] using rev_ind; [by destruct Hun|].
  pose proof (suffix_snoc_inv_1 _ _ _ _ Hsuf) as ->.
  apply suffix_snoc_inv_2 in Hsuf.
  destruct w1 as [|y w0 _] using rev_ind; [by left|].
  pose proof (suffix_snoc_inv_1 _ _ _ _ Hsuf) as ->.
  right. rewrite <- app_assoc in Hun. cbn [app] in Hun.
  destruct (uniform_run_last classify w0 prev c Hun) as (m & Hm & Hadj).
  exists w0, m. by rewrite <- app_assoc.
Qed.

Lemma scan_inv_step {mode : Type} `{EqDecision mode}
    (classify : ascii → ascii → option mode)
    (p0 : pystr) (prev c : ascii) (st : nat * nat * option mode) :
  scan_inv classify (p0 ++ [prev]) st →
  scan_inv classify ((p0 ++ [prev]) ++ [c]) (scan_step classify st prev c).
Proof.
  destruct st as [[best cur] last].
  intros ((q & wc & Hp & Hlen & H1 & Hlast) & Hb & Hc & Hle & Hd & He).
  destruct wc as [|x wc0 _] using rev_ind; [simpl in Hlen; lia|].
  rewrite app_assoc in Hp. apply app_inj_tail in Hp as [Hp0 <-].
  assert (Hsufs : ∀ w, w `suffix_of` (p0 ++ [prev]) ++ [c] →
            uniform_run classify w → ∀ n, 1 ≤ n →
            (∀ w0 m, w = w0 ++ [prev; c] → classify prev c = Some m →
               (w0 ++ [prev]) `suffix_of` (p0 ++ [prev]) →
               adjacent (fun a b => classify a b = Some m) (w0 ++ [prev]) →
               length w0 + 2 ≤ n) →
            length w ≤ n).
  { intros w Hsuf Hun n Hn Hlong.
    destruct (uniform_suffix_snoc classify p0 w prev c Hsuf Hun)
      as [-> | (w0 & m & -> & Hs & Hm & Hadj)]; [simpl; lia|].
    rewrite length_app. cbn [length]. by apply (Hlong w0 m). }
  assert (Hsubs : ∀ n, best ≤ n →
            (∀ w, w `suffix_of` (p0 ++ [prev]) ++ [c] →
               uniform_run classify w → length w ≤ n) →
            ∀ w, is_substring w ((p0 ++ [prev]) ++ [c]) →
              uniform_run classify w → length w ≤ n).
  { intros n Hn Hsuf w Hw Hun.
    destruct (substring_snoc _ _ _ Hw) as [Hin | Hs]; [|eauto].
    specialize (He w Hin Hun). lia. }
  unfold scan_step, scan_inv.
  destruct (classify prev c) as [m|] eqn:Hm.
  - case_bool_decide as Hl.
    + (* the run goes on *)
      subst last. destruct Hlast as [H2 Hadj].
      assert (Hc' : ∀ w, w `suffix_of` (p0 ++ [prev]) ++ [c] →
                uniform_run classify w → length w ≤ cur + 1).
      { intros w Hsuf Hun. apply (Hsufs w Hsuf Hun); [lia|].
        intros w0 m' -> _ Hs Hadj'.
        assert (Hw0 : length (w0 ++ [prev]) ≤ cur).
        { apply Hc; [done|]. split; [by destruct w0|]. right. eauto. }
        rewrite length_app in Hw0. simpl in Hw0. lia. }
      split; [|split; [|split; [|split; [|split]]]].
      * exists q, ((wc0 ++ [prev]) ++ [c]).
        split; [by rewrite Hp0, <- !app_assoc|].
        split; [rewrite length_app; simpl; lia|]. split; [lia|].
        split; [lia|]. rewrite <- app_assoc. apply adjacent_snoc. done.
      * intros p1 a b Hp. apply snoc_eq_snoc2 in Hp as (-> & -> & _). done.
      * exact Hc'.
      * lia.
      * destruct (Nat.le_gt_cases (cur + 1) best) as [Hbest|Hbest].
        -- destruct Hd as (w & Hw & Hwl & Hun). exists w.
           split; [by apply substring_app_l|]. split; [lia | done].
        -- exists ((wc0 ++ [prev]) ++ [c]). split.
           { apply suffix_substring. exists q.
             by rewrite Hp0, <- !app_assoc. }
           split; [rewrite length_app; simpl; lia|].
           split; [by destruct wc0|]. right. exists m.
           rewrite <- app_assoc. apply adjacent_snoc. done.
      * apply Hsubs; [lia|]. intros w Hsuf Hun.
        specialize (Hc' w Hsuf Hun). lia.
    + (* a run of another kind starts *)
      assert (Hc' : ∀ w, w `suffix_of` (p0 ++ [prev]) ++ [c] →
                uniform_run classify w → length w ≤ 2).
      { intros w Hsuf Hun. apply (Hsufs w Hsuf Hun); [lia|].
        intros w0 m' -> Hm' Hs Hadj'.
        destruct w0 as [|a w00 _] using rev_ind; [simpl; lia|].
        exfalso. apply Hl.
        destruct Hs as [k Hk]. rewrite <- app_assoc in Hk, Hadj'.
        cbn [app] in Hk, Hadj'.
        rewrite (Hb (k ++ w00) a prev) by (by rewrite <- app_assoc).
        apply adjacent_snoc in Hadj' as [_ Hap]. congruence. }
      split; [|split; [|split; [|split; [|split]]]].
      * exists p0, [prev; c]. split; [by rewrite <- app_assoc|].
        split; [done|]. split; [lia|]. split; [lia|]. cbn. done.
      * intros p1 a b Hp. apply snoc_eq_snoc2 in Hp as (-> & -> & _). done.
      * exact Hc'.
      * lia.
      * destruct (Nat.le_gt_cases 2 best) as [Hbest|Hbest].
        -- destruct Hd as (w & Hw & Hwl & Hun). exists w.
           split; [by apply substring_app_l|]. split; [lia | done].
        -- exists [prev; c]. split.
           { apply suffix_substring. exists p0. by rewrite <- app_assoc. }
           split; [simpl; lia|]. split; [done|]. right. exists m. cbn. done.
      * apply Hsubs; [lia|]. intros w Hsuf Hun.
        specialize (Hc' w Hsuf Hun). lia.
  - (* no run through this pair *)
    assert (Hc' : ∀ w, w `suffix_of` (p0 ++ [prev]) ++ [c] →
              uniform_run classify w → length w ≤ 1).
    { intros w Hsuf Hun. apply (Hsufs w Hsuf Hun); [lia|].
      intros w0 m' _ Hm' _ _. congruence. }
    split; [|split; [|split; [|split; [|split]]]].
    + exists (p0 ++ [prev]), [c]. done.
    + intros p1 a b Hp. apply snoc_eq_snoc2 in Hp as (-> & -> & _). done.
    + exact Hc'.
    + lia.
    + destruct Hd as (w & Hw & Hwl & Hun). exists w.
      split; [by apply substring_app_l | done].
    + apply Hsubs; [lia|]. intros w Hsuf Hun.
      specialize (Hc' w Hsuf Hun). lia.
Qed.

Lemma scan_inv_scan {mode : Type} `{EqDecision mode}
    (classify : ascii → ascii → option mode)
    (s p0 : pystr) (prev : ascii) (st : nat * nat * option mode) :
  scan_inv classify (p0 ++ [prev]) st →
  scan_inv classify (p0 ++ prev :: s) (scan classify prev s st).
Proof.
  revert p0 prev st. induction s as [|c s IH]; intros p0 prev st Hinv; [done|].
  cbn [scan]. change (p0 ++ prev :: c :: s) with (p0 ++ [prev] ++ c :: s).
  rewrite app_assoc. apply IH. by apply scan_inv_step.
Qed.

(** The longest run: the first component of the final state is the length
    of a uniform run of the string, and no uniform run of the string is
    longer. *)
Lemma scan_longest {mode : Type} `{EqDecision mode}
    (classify : ascii → ascii → option mode) (c0 : ascii) (s : pystr) :
  let best := (scan classify c0 s (1, 1, None)).1.1 in
  1 ≤ best
  ∧ (∃ w, is_substring w (c0 :: s) ∧ length w = best
          ∧ uniform_run classify w)
  ∧ (∀ w, is_substring w (c0 :: s) → uniform_run classify w →
          length w ≤ best).
Proof.
  pose proof (scan_inv_scan classify s [] c0 (1, 1, None)
                (scan_inv_init classify c0)) as Hinv.
  cbn [app] in Hinv.
  destruct (scan classify c0 s (1, 1, None)) as [[best cur] last].
  destruct Hinv as ((q & wc & _ & _ & H1 & _) & _ & _ & Hle & Hd & He).
  cbn. split; [lia|]. done.
Qed.




Lemma uniform_same_run (w : pystr) :
  uniform_run classify_same w ↔ ∃ c k, 1 ≤ k ∧ w = replicate k c.
Proof.
  unfold uniform_run. split.
  - intros [Hne H]. destruct w as [|c w]; [done|]. exists c, (S (length w)).
    split; [lia|]. cbn [replicate]. f_equal.
    destruct H as [Hlen | [[] Hm]].
    + destruct w; [done | simpl in Hlen; lia].
    + clear Hne. revert c Hm. induction w as [|b w IH]; intros c Hm; [done|].
      destruct Hm as [Hcb Hm]. unfold classify_same in Hcb.
      case_bool_decide; [subst b | done]. cbn [length replicate]. f_equal.
      by apply IH.
  - intros (c & k & Hk & ->). destruct k as [|k]; [lia|]. split; [done|].
    right. exists (). clear Hk. induction k as [|k IH]; [done|].
    cbn [replicate adjacent] in *. split; [|exact IH].
    unfold classify_same. by rewrite bool_decide_eq_true_2.
Qed.

(** *** The loops are scans over the pairs of neighbours *)

Lemma lookup_middle_pred (pre : pystr) (c0 : ascii) (r : pystr) :
  (pre ++ c0 :: r) !! (S (length pre) - 1) = Some c0.
Proof.
  replace (S (length pre) - 1) with (length pre + 0) by lia.
  by rewrite lookup_after.
Qed.

Lemma lookup_middle_succ (pre : pystr) (c0 d : ascii) (r : pystr) :
  (pre ++ c0 :: d :: r) !! S (length pre) = Some d.
Proof.
  replace (S (length pre)) with (length pre + 1) by lia.
  by rewrite lookup_after.
Qed.


Lemma run_loop_scan (r pre : pystr) (c0 : ascii) (best cur : nat)
    (last : option unit) :
  (last = None → cur = 1) →
  for_each (seq (S (length pre)) (length r)) (run_body (pre ++ c0 :: r))
    (best, cur)
  = Ok ((scan classify_same c0 r (best, cur, last)).1).
Proof.
  revert pre c0 best cur last.
  induction r as [|d r IH]; intros pre c0 best cur last Hlast; [done|].
  cbn [length seq for_each scan].
  assert (Hbody :
    ∃ best' cur' last',
      scan_step classify_same (best, cur, last) c0 d = (best', cur', last')
      ∧ (last' = None → cur' = 1)
      ∧ run_body (pre ++ c0 :: d :: r) (best, cur) (S (length pre))
        = Ok (best', cur')).
  { unfold run_body, py_index.
    rewrite lookup_middle_pred, lookup_middle_succ. cbn [mbind result_bind].
    unfold scan_step, classify_same. case_bool_decide.
    - eexists _, _, _. split; [reflexivity|]. split; [done|].
      destruct last as [[]|].
      + by rewrite bool_decide_eq_true_2.
      + rewrite Hlast by done. by rewrite bool_decide_eq_false_2.
    - eexists _, _, _. split; [reflexivity|]. done. }
  destruct Hbody as (best' & cur' & last' & -> & Hlast' & ->).
  rewrite bind_Ok.
  specialize (IH (pre ++ [c0]) d best' cur' last' Hlast').
  rewrite length_app, Nat.add_1_r, <- app_assoc in IH. exact IH.
Qed.



Lemma max_same_char_run_scan (c0 : ascii) (r : pystr) :
  _max_same_char_run (c0 :: r)
  = Ok (scan classify_same c0 r (1, 1, None)).1.1.
Proof.
  unfold _max_same_char_run, py_range. cbn [length].
  replace (S (length r) - 1) with (length r) by lia.
  pose proof (run_loop_scan r [] c0 1 1 None (fun _ => eq_refl)) as H.
  cbn [app length] in H. rewrite H. reflexivity.
Qed.

Lemma substring_length (w s : pystr) : is_substring w s → length w ≤ length s.
Proof. intros (pre & post & ->). rewrite !length_app. lia. Qed.

Lemma substring_nil_inv (w : pystr) : is_substring w [] → w = [].
Proof.
  intros H. apply substring_length in H. destruct w; [done|].
  simpl in H. lia.
Qed.



(** ** Windows of the keyboard-walk search *)

Lemma slice_substring (pre w post : pystr) :
  slice (pre ++ w ++ post) (length pre) (length pre + length w) = w.
Proof.
  unfold slice. rewrite drop_app_length.
  replace (length pre + length w - length pre) with (length w) by lia.
  by rewrite take_app_length.
Qed.

Lemma slice_is_substring (s : pystr) (i j : nat) :
  i ≤ j → j ≤ length s →
  is_substring (slice s i j) s ∧ length (slice s i j) = j - i.
Proof.
  intros Hij Hj. unfold slice. split.
  - exists (take i s), (drop (j - i) (drop i s)).
    by rewrite take_drop, take_drop.
  - rewrite length_take, length_drop. lia.
Qed.

(** The inner loop over [j], for one start [i] and the value [b0] of
    [best] on entry. *)
Lemma inner_loop_spec (text line : pystr) (i b0 a0 m : nat) :
  let inner := fun best j =>
    if str_in (slice text i j) line then max best (j - i) else best in
  let b := foldl inner b0 (seq a0 m) in
  b0 ≤ b
  ∧ (b = b0
     ∨ ∃ j, a0 ≤ j < a0 + m ∧ b = j - i
            ∧ str_in (slice text i j) line = true)
  ∧ (∀ j, a0 ≤ j < a0 + m → str_in (slice text i j) line = true →
          j - i ≤ b).
Proof.
  intros inner. induction m as [|m IH]; cbv zeta.
  - cbn. split; [lia|]. split; [by left|]. intros j Hj. lia.
  - rewrite seq_S, foldl_snoc.
    destruct IH as (Hle & Hor & Hall).
    set (b := foldl inner b0 (seq a0 m)) in *.
    assert (Hstep : inner b (a0 + m)
                    = if str_in (slice text i (a0 + m)) line
                      then max b (a0 + m - i) else b) by reflexivity.
    rewrite Hstep. clear Hstep.
    destruct (str_in (slice text i (a0 + m)) line) eqn:Hin.
    + split; [lia|]. split.
      * destruct (Nat.le_gt_cases (a0 + m - i) b) as [Hcmp|Hcmp].
        -- rewrite Nat.max_l by lia.
           destruct Hor as [Hb | (j & Hj & Hb & Hs)]; [by left|].
           right. exists j. split; [lia|]. done.
        -- rewrite Nat.max_r by lia. right. exists (a0 + m).
           split; [lia|]. done.
      * intros j Hj Hs. destruct (decide (j = a0 + m)) as [->|Hne]; [lia|].
        assert (j - i ≤ b) by (apply Hall; [lia | done]). lia.
    + split; [lia|]. split.
      * destruct Hor as [Hb | (j & Hj & Hb & Hs)]; [by left|].
        right. exists j. split; [lia|]. done.
      * intros j Hj Hs. destruct (decide (j = a0 + m)) as [->|Hne].
        -- congruence.
        -- apply Hall; [lia | done].
Qed.

(** What [best] is after the starts below [k]. *)
Lemma outer_loop_spec (text line : pystr) (k : nat) :
  let n := length text in
  let outer := fun best i =>
    foldl
      (fun best j =>
         if str_in (slice text i j) line then max best (j - i) else best)
      best (py_range (i + best + 1) (min n (i + 12) + 1)) in
  let b := foldl outer 1 (seq 0 k) in
  1 ≤ b ≤ 12
  ∧ (b = 1
     ∨ ∃ i, i + b ≤ n ∧ str_in (slice text i (i + b)) line = true)
  ∧ (∀ i L, i < k → L ≤ 12 → i + L ≤ n →
            str_in (slice text i (i + L)) line = true → L ≤ b).
Proof.
  intros n outer. induction k as [|k IH]; cbv zeta.
  - cbn. split; [lia|]. split; [by left|]. intros i L Hi. lia.
  - rewrite seq_S, foldl_snoc. cbn [Nat.add].
    destruct IH as (Hb & Hor & Hall).
    set (b0 := foldl outer 1 (seq 0 k)) in *.
    unfold outer. unfold py_range.
    destruct (inner_loop_spec text line k b0 (k + b0 + 1)
                (min n (k + 12) + 1 - (k + b0 + 1)))
      as (Hle & Hor' & Hall').
    cbv zeta in Hle, Hor', Hall'.
    set (b1 := foldl _ b0 (seq (k + b0 + 1) _)) in *.
    split; [|split].
    + clearbody b1 b0. destruct Hor' as [Hb1 | (j & Hj & Hb1 & _)]; lia.
    + clearbody b1 b0. destruct Hor' as [Hb1 | (j & Hj & Hb1 & Hs)].
      * rewrite Hb1. exact Hor.
      * right. exists k. replace (k + b1) with j by lia.
        split; [lia | done].
    + clearbody b1 b0. intros i L Hi HL Hn Hs.
      destruct (decide (i = k)) as [->|Hne].
      * destruct (Nat.le_gt_cases L b0) as [Hcmp|Hcmp]; [lia|].
        specialize (Hall' (k + L)).
        replace (k + L - k) with L in Hall' by lia.
        apply Hall'; [lia | done].
      * assert (L ≤ b0) by (apply (Hall i L); [lia | done..]). lia.
Qed.

Lemma str_in_slice_spec (text line : pystr) (i L : nat) :
  i + L ≤ length text →
  str_in (slice text i (i + L)) line = true ↔
  ∃ w, length w = L ∧ is_substring w line
       ∧ ∃ post, drop i text = w ++ post.
Proof.
  intros Hn. rewrite str_in_spec. unfold slice.
  replace (i + L - i) with L by lia. split.
  - intros Hs. exists (take L (drop i text)).
    split; [rewrite length_take, length_drop; lia|]. split; [done|].
    exists (drop L (drop i text)). by rewrite take_drop.
  - intros (w & Hlen & Hs & post & Hd). rewrite Hd, <- Hlen.
    by rewrite take_app_length.
Qed.

Lemma substring_take (w s : pystr) (k : nat) :
  is_substring w s → is_substring (take k w) s.
Proof.
  intros (pre & post & ->). exists pre, (drop k w ++ post).
  rewrite <- (take_drop k w) at 1. by rewrite <- !app_assoc.
Qed.

Lemma longest_substring_on_line_range (text line : pystr) :
  1 ≤ _longest_substring_on_line text line ≤ 12.
Proof.
  pose proof (outer_loop_spec text line (length text)) as H.
  cbv zeta in H. unfold _longest_substring_on_line, py_range.
  rewrite Nat.sub_0_r. cbv zeta. tauto.
Qed.

Lemma longest_substring_on_line_sound (text line : pystr) :
  let r := _longest_substring_on_line text line in
  r = 1 ∨ ∃ w, length w = r ∧ is_substring w text ∧ is_substring w line.
Proof.
  pose proof (outer_loop_spec text line (length text)) as H.
  cbv zeta in H. unfold _longest_substring_on_line, py_range.
  rewrite Nat.sub_0_r. cbv zeta.
  set (r := foldl _ 1 (seq 0 (length text))) in *. clearbody r.
  destruct H as (_ & Hor & _).
  destruct Hor as [Hb1 | (i & Hi & Hs)]; [by left|]. right.
  apply str_in_slice_spec in Hs as (w & Hlen & Hline & post & Hd); [|done].
  exists w. split; [done|]. split; [|done].
  exists (take i text), post. by rewrite <- Hd, take_drop.
Qed.

Lemma longest_substring_on_line_complete (text line w0 : pystr) :
  is_substring w0 text → is_substring w0 line →
  min 12 (length w0) ≤ _longest_substring_on_line text line.
Proof.
  intros Hw0 Hline0.
  pose proof (outer_loop_spec text line (length text)) as H.
  cbv zeta in H. unfold _longest_substring_on_line, py_range.
  rewrite Nat.sub_0_r. cbv zeta.
  set (r := foldl _ 1 (seq 0 (length text))) in *. clearbody r.
  destruct H as (Hb & _ & Hall).
  pose proof (substring_take w0 text 12 Hw0) as Hw.
  pose proof (substring_take w0 line 12 Hline0) as Hline.
  assert (Hlen : length (take 12 w0) = min 12 (length w0))
    by apply length_take.
  rewrite <- Hlen. clear Hw0 Hline0.
  destruct (take 12 w0) as [|c w]; [simpl; lia|].
  destruct Hw as (pre & post & Heq).
  apply (Hall (length pre) (length (c :: w))).
  - rewrite Heq, !length_app. simpl. lia.
  - lia.
  - rewrite Heq, !length_app. lia.
  - rewrite Heq, slice_substring. by apply str_in_spec.
Qed.

Lemma keyboard_rows_fold (text : pystr) (rs : list pystr) (b0 : nat) :
  1 ≤ b0 →
  let r :=
    foldl
      (fun best row =>
         let best := max best (_longest_substring_on_line text row) in
         max best (_longest_substring_on_line text (rev row)))
      b0 rs in
  b0 ≤ r ≤ max b0 12
  ∧ (r = b0
     ∨ ∃ row w,
         row ∈ rs ∧ 2 ≤ r ∧ length w = r ∧ is_substring w text
         ∧ (is_substring w row ∨ is_substring w (rev row)))
  ∧ (∀ row w,
       row ∈ rs → is_substring w text →
       is_substring w row ∨ is_substring w (rev row) →
       min 12 (length w) ≤ r).
Proof.
  revert b0. induction rs as [|row rs IH]; intros b0 Hb0; cbv zeta.
  - cbn. split; [lia|]. split; [by left|]. intros row w Hin.
    by apply elem_of_nil in Hin.
  - cbn [foldl].
    pose proof (longest_substring_on_line_range text row) as Hb1.
    pose proof (longest_substring_on_line_range text (rev row)) as Hb2.
    pose proof (longest_substring_on_line_sound text row) as Hor1.
    pose proof (longest_substring_on_line_sound text (rev row)) as Hor2.
    pose proof (longest_substring_on_line_complete text row) as Hall1.
    pose proof (longest_substring_on_line_complete text (rev row)) as Hall2.
    cbv zeta in Hor1, Hor2.
    set (r1 := _longest_substring_on_line text row) in *.
    set (r2 := _longest_substring_on_line text (rev row)) in *.
    clearbody r1 r2.
    specialize (IH (max (max b0 r1) r2)). cbv zeta in IH.
    specialize (IH ltac:(lia)).
    set (r := foldl _ (max (max b0 r1) r2) rs) in *. clearbody r.
    destruct IH as (Hb & Hor & Hall).
    split; [lia|]. split.
    + destruct Hor as [Hr | (row' & w & Hin & H2 & Hlen & Hw & Hrow)].
      * destruct (decide (r = b0)) as [Heq|Hne]; [by left|]. right.
        assert (Hcase : (r = r1 ∧ r1 ≠ 1) ∨ (r = r2 ∧ r2 ≠ 1)) by lia.
        destruct Hcase as [[Hr1 Hn1] | [Hr2 Hn2]].
        -- destruct Hor1 as [?|(w & Hlen & Hw & Hrow)]; [done|].
           exists row, w. split; [by left|]. split; [lia|].
           split; [lia|]. split; [done | by left].
        -- destruct Hor2 as [?|(w & Hlen & Hw & Hrow)]; [done|].
           exists row, w. split; [by left|]. split; [lia|].
           split; [lia|]. split; [done | by right].
      * right. exists row', w. split; [by right | done].
    + intros row' w Hin Hw Hrow.
      apply elem_of_cons in Hin as [-> | Hin]; [|by apply (Hall row' w)].
      destruct Hrow as [Hrow | Hrow].
      * specialize (Hall1 w Hw Hrow). lia.
      * specialize (Hall2 w Hw Hrow). lia.
Qed.

(** ** Repeated chunks *)

Lemma length_str_mul (chunk : pystr) (m : nat) :
  length (str_mul chunk m) = m * length chunk.
Proof.
  induction m as [|m IH]; [done|]. cbn [str_mul].
  rewrite length_app, IH. lia.
Qed.

Lemma startswith_single (c x : ascii) (s : pystr) :
  startswith (x :: s) [c] = bool_decide (c = x).
Proof. simpl. destruct s; simpl; by rewrite andb_true_r. Qed.

Lemma char_in_single (c x : ascii) : char_in x [c] = bool_decide (c = x).
Proof.
  unfold char_in. apply bool_decide_ext.
  rewrite list_elem_of_singleton. split; congruence.
Qed.

Lemma count_from_single (c : ascii) (s : pystr) :
  count_from [c] 0 s = count_in [c] s.
Proof.
  unfold count_in. induction s as [|x s IH]; [done|].
  cbn [count_from List.filter]. rewrite startswith_single, char_in_single.
  cbn [length Nat.sub]. case_bool_decide; cbn [length]; by rewrite IH.
Qed.

Lemma split_from_head (s t : pystr) (ts : list pystr) :
  split_from false s = t :: ts →
  forallb re_AZaz t = true ∧ ∃ post, s = t ++ post.
Proof.
  revert t ts. induction s as [|c s IH]; intros t ts.
  - intros [= <- <-]. split; [done | by exists []].
  - cbn [split_from]. destruct (re_AZaz c) eqn:Hc.
    + destruct (split_from false s) as [|t1 ts1] eqn:Hs.
      * intros [= <- <-]. cbn. rewrite Hc.
        split; [done|]. exists s. done.
      * intros [= <- <-]. destruct (IH t1 ts1 eq_refl) as (Ht1 & post & ->).
        split; [cbn; by rewrite Hc, Ht1 | by exists post].
    + intros [= <- <-]. split; [done | by exists (c :: s)].
Qed.

Lemma split_from_tokens (b : bool) (s t : pystr) :
  t ∈ split_from b s → forallb re_AZaz t = true ∧ is_substring t s.
Proof.
  revert b. induction s as [|c s IH]; intros b.
  - cbn [split_from]. intros Hin. apply list_elem_of_singleton in Hin as ->.
    split; [done | by exists [], []].
  - assert (Hweak : ∀ b', t ∈ split_from b' s →
              forallb re_AZaz t = true ∧ is_substring t (c :: s)).
    { intros b' Hin. destruct (IH b' Hin) as (Ht & pre & post & ->).
      split; [done|]. by exists (c :: pre), post. }
    cbn [split_from]. destruct (re_AZaz c) eqn:Hc.
    + destruct (split_from false s) as [|t1 ts1] eqn:Hs.
      * intros Hin. apply list_elem_of_singleton in Hin as ->.
        split; [cbn; by rewrite Hc | by exists [], s].
      * intros Hin. apply elem_of_cons in Hin as [-> | Hin].
        -- destruct (split_from_head s t1 ts1 Hs) as (Ht1 & post & ->).
           split; [cbn; by rewrite Hc, Ht1 | by exists [], post].
        -- apply (Hweak false). rewrite Hs. by right.
    + destruct b.
      * apply Hweak.
      * intros Hin. apply elem_of_cons in Hin as [-> | Hin].
        -- split; [done | by exists [], (c :: s)].
        -- by apply (Hweak true).
Qed.

Lemma count_starts_pos (s : pystr) :
  0 < count_starts s →
  ∃ pre c a b post,
    s = pre ++ c :: a :: b :: post
    ∧ re_AZ c = true ∧ re_az a = true ∧ re_az b = true.
Proof.
  induction s as [|c s IH]; [simpl; lia|].
  cbn [count_starts starts_camel].
  destruct (re_AZ c && (2 <=? length (take_while re_az s))) eqn:Hst.
  - intros _. apply andb_true_iff in Hst as [Hc Hrun].
    apply Nat.leb_le in Hrun.
    destruct s as [|a [|b post]]; cbn [take_while] in Hrun.
    + simpl in Hrun. lia.
    + destruct (re_az a); simpl in Hrun; lia.
    + destruct (re_az a) eqn:Ha; [|simpl in Hrun; lia].
      destruct (re_az b) eqn:Hb; [|simpl in Hrun; lia].
      exists [], c, a, b, post. done.
  - intros Hpos. destruct IH as (pre & c' & a & b & post & -> & H); [lia|].
    exists (c :: pre), c', a, b, post. done.
Qed.

Lemma re_AZ_alpha (c : ascii) : re_AZ c = true → re_AZaz c = true.
Proof. unfold re_AZ, re_AZaz. by intros ->. Qed.

Lemma re_az_alpha (c : ascii) : re_az c = true → re_AZaz c = true.
Proof. unfold re_az, re_AZaz. intros ->. by rewrite orb_true_r. Qed.

(** The three intent signals all need a word token. *)
Lemma intent_needs_word_token (s : pystr) (wpd : bool) :
  _has_word_plus_dateish s = Ok wpd →
  _looks_like_passphrase s || (2 <=? _camel_case_segments s) || wpd = true →
  has_word_token s.
Proof.
  intros Hwpd Hint. apply orb_true_iff in Hint as [Hint | ->].
  - apply orb_true_iff in Hint as [Hpass | Hcamel].
    + apply has_word_token_spec. unfold _looks_like_passphrase in Hpass.
      apply Nat.leb_le in Hpass. apply Nat.leb_le. lia.
    + apply Nat.leb_le in Hcamel.
      unfold _camel_case_segments, re_findall in Hcamel.
      rewrite findall_camel_count in Hcamel by lia.
      destruct (count_starts_pos s) as (pre & c & a & b & post & -> & Hc & Ha & Hb);
        [lia|].
      apply (word_token_of_substring _ [c; a; b]).
      * by exists pre, post.
      * cbn. by rewrite (re_AZ_alpha c Hc), (re_az_alpha a Ha), (re_az_alpha b Hb).
      * simpl. lia.
  - unfold _has_word_plus_dateish in Hwpd.
    destruct (_longest_linear_sequence s) as [n|e]; [|done].
    cbn in Hwpd. injection Hwpd as Hwpd.
    apply has_word_token_spec.
    apply andb_true_iff in Hwpd as [Hwpd _].
    by apply andb_true_iff in Hwpd as [Hwpd _].
Qed.


(** ** The record and the score *)

Lemma score_entry_passed (pw : pystr) (b : bool) (info : gmap string value)
    (z : Z) :
  _validate_details pw = Ok (b, info) →
  info !! "score"%string = Some (VInt z) →
  8 ≤ length (strip pw)
  ∧ ∃ seq_len max_run smashy wpd,
      z = score_of (strip pw) seq_len max_run smashy wpd.
Proof.
  set (s := strip pw). intros Hv Hz.
  destruct (longest_linear_sequence_total s) as [seq_len Hseq].
  destruct (max_same_char_run_total s) as [max_run Hrun].
  destruct (looks_like_consonant_smash_total s) as [smashy Hsmash].
  destruct (has_word_plus_dateish_total s) as [wpd Hwpd].
  unfold _validate_details in Hv. cbv zeta in Hv. fold s in Hv.
  fold (has_banned s) in Hv.
  destruct (Nat.ltb_spec (length s) 8) as [Hlen|Hlen].
  { injection Hv as <- <-. by simplify_map_eq. }
  destruct (has_banned s).
  { injection Hv as <- <-. by simplify_map_eq. }
  rewrite py_truediv_pos in Hv by lia. rewrite bind_Ok in Hv.
  fold (amb_ratio s) in Hv.
  destruct (Qle_bool (60 # 100) (amb_ratio s)).
  { injection Hv as <- <-. by simplify_map_eq. }
  rewrite Hseq, bind_Ok in Hv.
  destruct (5 <=? max seq_len (_longest_keyboard_walk s)).
  { injection Hv as <- <-. by simplify_map_eq. }
  rewrite Hrun, bind_Ok, Hsmash, bind_Ok, Hwpd, bind_Ok in Hv.
  fold (score_of s seq_len max_run smashy wpd) in Hv.
  split; [done|]. exists seq_len, max_run, smashy, wpd.
  destruct (negb _);
    [|destruct (3 <=? score_of s seq_len max_run smashy wpd)%Z];
    injection Hv as <- <-; by simplify_map_eq.
Qed.

Lemma points_bounds (w : Z) (c : bool) :
  (Z.min 0 w ≤ points w c ≤ Z.max 0 w)%Z.
Proof. destruct c; simpl; lia. Qed.

Lemma score_of_bounds (s : pystr) (seq_len max_run : nat)
    (smashy wpd : bool) :
  8 ≤ length s →
  (-12 ≤ score_of s seq_len max_run smashy wpd ≤ 13)%Z.
Proof.
  intros Hlen. rewrite score_of_sum by done.
  assert (Hl : (1 ≤ length_points (length s) ≤ 4)%Z).
  { unfold length_points.
    repeat match goal with
      | |- context [?a <=? ?b] => destruct (Nat.leb_spec a b); cbn [andb]
      end; lia. }
  assert (Hv : (0 ≤ variety_points s ≤ 3)%Z) by (unfold variety_points; lia).
  repeat match goal with
    | |- context [points ?w ?c] =>
        pose proof (points_bounds w c); generalize dependent (points w c);
        intros
    end.
  lia.
Qed.

Lemma re_az_lower_char (c : ascii) :
  re_az (lower_char c) = true → re_AZaz c = true.
Proof.
  destruct c as [[] [] [] [] [] [] [] []]; vm_compute; intros H;
    first [reflexivity | discriminate H].
Qed.

Lemma lower_letters (w m : pystr) :
  lower w = m → forallb re_az m = true → forallb re_AZaz w = true.
Proof.
  intros <-. induction w as [|c w IH]; [done|].
  cbn [lower map forallb]. rewrite !andb_true_iff. intros [Hc Hw].
  split; [by apply re_az_lower_char | by apply IH].
Qed.

Lemma month_shape (m : pystr) :
  m ∈ months → length m = 3 ∧ forallb re_az m = true.
Proof.
  unfold months. cbn [map]. rewrite !elem_of_cons, elem_of_nil.
  intros H. repeat (destruct H as [->|H]; [split; reflexivity|]). done.
Qed.

Lemma month_gives_word_token (pw : pystr) :
  contains_month (lower pw) → has_word_token pw.
Proof.
  intros (m & Hin & pre & post & Heq).
  destruct (month_shape m Hin) as [Hlen Haz].
  unfold lower in Heq.
  apply map_eq_app in Heq as (pre' & rest & -> & _ & Hrest).
  apply map_eq_app in Hrest as (w & post' & -> & Hw & _).
  apply (word_token_of_substring _ w).
  - by exists pre', post'.
  - by apply (lower_letters w m).
  - rewrite <- Hlen, <- Hw. rewrite length_map. lia.
Qed.

(** ** Tokens across separators *)

Lemma split_from_nonnil (b : bool) (s : pystr) : split_from b s ≠ [].
Proof.
  revert b. induction s as [|c s IH]; intros b; cbn [split_from]; [done|].
  destruct (re_AZaz c).
  - by destruct (split_from false s).
  - destruct b; [apply IH | done].
Qed.

Lemma split_from_head_take_while (s t : pystr) (ts : list pystr) :
  split_from false s = t :: ts → t = take_while re_AZaz s.
Proof.
  revert t ts. induction s as [|c s IH]; intros t ts.
  - by intros [= <- <-].
  - cbn [split_from take_while]. destruct (re_AZaz c).
    + destruct (split_from false s) as [|t1 ts1] eqn:Hs.
      * by destruct (split_from_nonnil false s).
      * intros [= <- <-]. f_equal. by apply (IH t1 ts1).
    + by intros [= <- <-].
Qed.

Lemma take_while_app_stop (p : ascii → bool) (u v : pystr) (c : ascii) :
  p c = false → take_while p (u ++ c :: v) = take_while p u.
Proof.
  intros Hc. induction u as [|a u IH]; cbn [app take_while].
  - by rewrite Hc.
  - destruct (p a); [by rewrite IH | done].
Qed.

Lemma filter_split_from_any (f : pystr → bool) (s : pystr) :
  f [] = false →
  List.filter f (split_from true s) = List.filter f (split_from false s).
Proof.
  intros Hf. destruct s as [|c s]; [done|]. cbn [split_from].
  destruct (re_AZaz c); [done|]. cbn [List.filter]. by rewrite Hf.
Qed.

Lemma filter_split_from_app (f : pystr → bool) (u v : pystr) (c : ascii)
    (b : bool) :
  f [] = false → re_AZaz c = false →
  List.filter f (split_from b (u ++ c :: v))
  = List.filter f (split_from b u) ++ List.filter f (split_from true v).
Proof.
  intros Hf Hc. revert b. induction u as [|a u IH]; intros b.
  - cbn [app split_from List.filter]. rewrite Hc, Hf.
    destruct b; [done|]. cbn [List.filter]. by rewrite Hf.
  - cbn [app split_from]. destruct (re_AZaz a).
    + specialize (IH false).
      destruct (split_from false (u ++ c :: v)) as [|t ts] eqn:Hl;
        [by destruct (split_from_nonnil false (u ++ c :: v))|].
      destruct (split_from false u) as [|t' ts'] eqn:Hr;
        [by destruct (split_from_nonnil false u)|].
      apply split_from_head_take_while in Hl, Hr.
      rewrite take_while_app_stop in Hl by done. subst t t'.
      cbn [List.filter] in *.
      destruct (f (take_while re_AZaz u)), (f (a :: take_while re_AZaz u));
        cbn [app] in *; try injection IH as IH; by rewrite IH.
    + destruct b; [apply IH|]. cbn [List.filter]. rewrite Hf. apply IH.
Qed.

Lemma split_from_letters (b : bool) (w : pystr) :
  forallb re_AZaz w = true → w ≠ [] → split_from b w = [w].
Proof.
  revert b. induction w as [|c w IH]; intros b Hw Hne; [done|].
  cbn [forallb] in Hw. apply andb_true_iff in Hw as [Hc Hw].
  cbn [split_from]. rewrite Hc. destruct w as [|d w]; [done|].
  by rewrite (IH false Hw).
Qed.

(** ** Key smashing *)

Lemma Qlt_bool_fifth (v : Z) (p : positive) :
  Qlt_bool (inject_Z v / inject_Z (Z.pos p)) (2 # 10)
  = (5 * v <? Z.pos p)%Z.
Proof.
  unfold Qlt_bool, Qle_bool, Qdiv, Qmult, Qinv, inject_Z. cbn [Qnum Qden].
  rewrite Pos.mul_1_l.
  destruct (Z.leb_spec (2 * Z.pos p) (v * 1 * 10)),
    (Z.ltb_spec (5 * v) (Z.pos p)); cbn [negb]; try reflexivity; lia.
Qed.

Lemma smash_loop_existsb (tokens : list pystr) :
  Forall (fun t => 0 < length t) tokens →
  smash_loop tokens = Ok (existsb few_vowels tokens).
Proof.
  induction 1 as [|t ts Ht _ IH]; [done|]. cbn [smash_loop existsb].
  rewrite py_truediv_pos by lia. rewrite bind_Ok.
  destruct (length t) as [|k] eqn:Hk; [lia|].
  replace (Z.of_nat (S k)) with (Z.pos (Pos.of_succ_nat k)) by lia.
  rewrite Qlt_bool_fifth.
  assert (Hf : (5 * Z.of_nat (count_in vowels t)
                <? Z.pos (Pos.of_succ_nat k))%Z = few_vowels t).
  { unfold few_vowels. rewrite Hk.
    destruct (Z.ltb_spec (5 * Z.of_nat (count_in vowels t))
                (Z.pos (Pos.of_succ_nat k))),
      (Nat.ltb_spec (5 * count_in vowels t) (S k)); try reflexivity; lia. }
  rewrite Hf. destruct (few_vowels t); [done|]. by rewrite IH.
Qed.

Lemma findall_from_skip (m : pystr → option nat) (s : pystr) (k : nat) :
  k ≤ length s → findall_from m k s = findall_from m 0 (drop k s).
Proof.
  revert k. induction s as [|c s IH]; intros [|k] Hk.
  - done.
  - simpl in Hk. lia.
  - by rewrite drop_0.
  - cbn [findall_from]. rewrite skipn_cons. apply IH. simpl in Hk. lia.
Qed.

Lemma take_take_while (p : ascii → bool) (s : pystr) :
  take (length (take_while p s)) s = take_while p s.
Proof.
  induction s as [|c s IH]; [done|]. cbn [take_while].
  destruct (p c); [|done]. cbn [length take]. by rewrite IH.
Qed.

Lemma take_while_drop (p : ascii → bool) (s : pystr) :
  take_while p s ++ drop (length (take_while p s)) s = s.
Proof.
  induction s as [|c s IH]; [done|]. cbn [take_while].
  destruct (p c); [|done]. cbn [length app]. rewrite skipn_cons.
  by rewrite IH.
Qed.

Lemma forallb_take_while (p : ascii → bool) (s : pystr) :
  forallb p (take_while p s) = true.
Proof.
  induction s as [|c s IH]; [done|]. cbn [take_while].
  destruct (p c) eqn:Hc; [|done]. cbn [forallb]. by rewrite Hc, IH.
Qed.

Lemma drop_take_while_head (p : ascii → bool) (s : pystr) :
  match drop (length (take_while p s)) s with
  | [] => True
  | d :: _ => p d = false
  end.
Proof.
  induction s as [|c s IH]; [done|]. cbn [take_while].
  destruct (p c) eqn:Hc; [exact IH | exact Hc].
Qed.

(** A run of letters followed by the end or by a non-letter. *)
Lemma split_from_run (b : bool) (w rest : pystr) :
  forallb re_AZaz w = true → w ≠ [] →
  match rest with [] => True | d :: _ => re_AZaz d = false end →
  split_from b (w ++ rest)
  = w :: match rest with
         | [] => []
         | _ :: rest' => split_from true rest'
         end.
Proof.
  intros Hw Hne Hrest. revert b. induction w as [|c w IH]; intros b; [done|].
  cbn [forallb] in Hw. apply andb_true_iff in Hw as [Hc Hw].
  cbn [app split_from]. rewrite Hc. destruct w as [|d w].
  - cbn [app]. destruct rest as [|d rest]; [done|].
    cbn [split_from]. by rewrite Hrest.
  - by rewrite (IH Hw).
Qed.

Lemma findall_alpha7_split (n : nat) (s : pystr) (b : bool) :
  length s ≤ n →
  findall_from match_alpha7 0 s
  = List.filter (fun t => 7 <=? length t) (split_from b s).
Proof.
  revert s b. induction n as [|n IH]; intros s b Hn.
  - destruct s; [done | simpl in Hn; lia].
  - destruct s as [|c s]; [done|]. cbn [length] in Hn.
    destruct (re_AZaz c) eqn:Hc.
    + (* the run of letters at the head *)
      set (w' := take_while re_AZaz s).
      set (rest := drop (length w') s).
      assert (Hs : s = w' ++ rest) by (symmetry; apply take_while_drop).
      assert (Hw : forallb re_AZaz (c :: w') = true).
      { cbn [forallb]. rewrite Hc. apply forallb_take_while. }
      pose proof (drop_take_while_head re_AZaz s) as Hrest.
      fold w' in Hrest. fold rest in Hrest.
      assert (Hlen : length w' + length rest = length s).
      { rewrite <- length_app, <- Hs. done. }
      assert (Hrest_eq :
        findall_from match_alpha7 0 rest
        = List.filter (fun t => 7 <=? length t)
            match rest with [] => [] | _ :: rest' => split_from true rest' end).
      { destruct rest as [|d rest'] eqn:Hr; [done|].
        cbn [findall_from]. unfold match_alpha7 at 1. cbn [take_while].
        rewrite Hrest. cbn [length Nat.leb].
        apply IH. cbn [length] in Hlen. lia. }
      assert (Hsplit : split_from b (c :: s)
                       = (c :: w')
                         :: match rest with
                            | [] => []
                            | _ :: rest' => split_from true rest'
                            end).
      { rewrite Hs at 1.
        apply (split_from_run b (c :: w') rest Hw); [done | exact Hrest]. }
      rewrite Hsplit. cbn [List.filter]. rewrite <- Hrest_eq.
      cbn [findall_from]. unfold match_alpha7 at 1. cbn [take_while].
      rewrite Hc. fold w'. cbn [length].
      destruct (7 <=? S (length w')) eqn:H7.
      * rewrite findall_from_skip by lia. f_equal.
        cbn [take]. f_equal. apply take_take_while.
      * (* no match anywhere inside a short run *)
        apply Nat.leb_gt in H7.
        assert (Hgen : ∀ u, forallb re_AZaz u = true → length u < 7 →
                  findall_from match_alpha7 0 (u ++ rest)
                  = findall_from match_alpha7 0 rest).
        { clear -Hrest.
          induction u as [|a u IHu]; intros Hu Hlu; [done|].
          cbn [forallb] in Hu. apply andb_true_iff in Hu as [Ha Hu].
          cbn [app findall_from]. unfold match_alpha7 at 1.
          assert (Hrun : take_while re_AZaz (a :: u ++ rest) = a :: u).
          { clear -Ha Hu Hrest. cbn [take_while]. rewrite Ha. f_equal.
            induction u as [|x u IHu]; cbn [app take_while forallb] in *.
            - destruct rest as [|d rest]; [done|]. cbn [take_while].
              by rewrite Hrest.
            - apply andb_true_iff in Hu as [-> Hu]. f_equal. by apply IHu. }
          rewrite Hrun. destruct (Nat.leb_spec 7 (length (a :: u))); [lia|].
          apply IHu; [done | simpl in Hlu; lia]. }
        rewrite Hs at 1. apply Hgen; [apply forallb_take_while | lia].
    + cbn [findall_from split_from]. unfold match_alpha7 at 1.
      cbn [take_while]. rewrite Hc. cbn [length Nat.leb].
      destruct b; cbn [List.filter length Nat.leb]; apply IH; lia.
Qed.

(** ** The properties *)





(** X3.  [_max_same_char_run] returns at least 1; on a non-empty string
    it returns the length of a block of one repeated character that occurs
    in the string, and no such block occurring there is longer. *)
Theorem max_same_char_run_is_longest (pw : pystr) :
  ∃ n,
    _max_same_char_run pw = Ok n
    ∧ 1 ≤ n
    ∧ (pw ≠ [] → ∃ c, is_substring (replicate n c) pw)
    ∧ (∀ c k, is_substring (replicate k c) pw → k ≤ n).
Proof.
  destruct pw as [|c0 r].
  - exists 1. split; [reflexivity|]. split; [done|]. split; [done|].
    intros c k Hk. apply substring_nil_inv in Hk. destruct k; [lia|done].
  - rewrite max_same_char_run_scan.
    destruct (scan_longest classify_same c0 r)
      as (H1 & (w & Hw & Hlen & Hun) & Hmax).
    eexists. split; [reflexivity|]. cbv zeta in *.
    split; [done|]. split.
    + intros _. apply uniform_same_run in Hun as (c & k & Hk & ->).
      exists c. rewrite length_replicate in Hlen. by rewrite <- Hlen.
    + intros c k Hk. destruct k as [|k]; [lia|].
      rewrite <- (length_replicate (S k) c). apply Hmax; [done|].
      apply uniform_same_run. exists c, (S k). split; [lia|done].
Qed.

Lemma max_same_char_run_is_longest_witness :
  str "abbbc" ≠ []
  ∧ _max_same_char_run (str "abbbc") = Ok 3
  ∧ ∃ c, is_substring (replicate 3 c) (str "abbbc").
Proof.
  assert (Hne : str "abbbc" ≠ []) by done.
  assert (Hv : _max_same_char_run (str "abbbc") = Ok 3)
    by (vm_compute; reflexivity).
  split; [exact Hne|]. split; [exact Hv|].
  destruct (max_same_char_run_is_longest (str "abbbc"))
    as (n & Hn & _ & Hex & _).
  rewrite Hv in Hn. injection Hn as <-. exact (Hex Hne).
Defined.

(** X4.  [_longest_substring_on_line] returns a value between 1 and 12;
    if it returns more than 1, a substring of that length of the text
    occurs in the line; and every substring common to the text and the
    line is at most that long, or longer than 12 when 12 is returned. *)
Theorem longest_substring_on_line_spec (text line : pystr) :
  let r := _longest_substring_on_line text line in
  1 ≤ r ≤ 12
  ∧ (r = 1
     ∨ ∃ w, length w = r ∧ is_substring w text ∧ is_substring w line)
  ∧ (∀ w, is_substring w text → is_substring w line →
          min 12 (length w) ≤ r).
Proof.
  cbv zeta. split; [apply longest_substring_on_line_range|]. split.
  - apply longest_substring_on_line_sound.
  - intros w Hw Hline. by apply longest_substring_on_line_complete.
Qed.

(** X5.  [_longest_keyboard_walk] returns a value between 1 and 12; if it
    returns more than 1, the lowercased candidate contains a substring of
    that length that lies on one of the four keyboard rows, forwards or
    backwards; and every such substring of the lowercased candidate is at
    most that long, or longer than 12 when 12 is returned. *)
Theorem longest_keyboard_walk_spec (pw : pystr) :
  let r := _longest_keyboard_walk pw in
  1 ≤ r ≤ 12
  ∧ (r = 1
     ∨ ∃ row w,
         row ∈ rows ∧ length w = r ∧ is_substring w (lower pw)
         ∧ (is_substring w row ∨ is_substring w (rev row)))
  ∧ (∀ row w,
       row ∈ rows → is_substring w (lower pw) →
       is_substring w row ∨ is_substring w (rev row) →
       min 12 (length w) ≤ r).
Proof.
  destruct (keyboard_rows_fold (lower pw) rows 1) as (Hb & Hor & Hall); [lia|].
  cbv zeta in Hb, Hor, Hall. unfold _longest_keyboard_walk. cbv zeta.
  set (r := foldl _ 1 rows) in *. clearbody r.
  split; [lia|]. split; [|exact Hall].
  destruct Hor as [? | (row & w & Hin & _ & Hlen & Hw & Hrow)]; [by left|].
  right. exists row, w. done.
Qed.

(** X6.  [_is_repeated_short_chunk] flags every exact tiling: a chunk of
    one to three characters repeated three or more times. *)
Theorem repeated_short_chunk_tiling (chunk : pystr) (m : nat) :
  1 ≤ length chunk ≤ 3 → 3 ≤ m →
  _is_repeated_short_chunk (str_mul chunk m) = true.
Proof.
  intros Hk Hm. unfold _is_repeated_short_chunk. cbv zeta.
  apply orb_true_iff. left. apply existsb_exists.
  exists (length chunk). split.
  - destruct chunk as [|a [|b [|c [|d chunk]]]]; simpl in *; try lia; tauto.
  - rewrite length_str_mul.
    rewrite Nat.Div0.mod_mul, Nat.div_mul by lia. cbn [Nat.eqb andb].
    apply andb_true_iff. split; [by apply Nat.leb_le|].
    unfold str_eqb. apply bool_decide_eq_true. f_equal.
    unfold slice. rewrite Nat.sub_0_r, drop_0.
    destruct m as [|m]; [lia|]. cbn [str_mul]. by rewrite take_app_length.
Qed.

Lemma repeated_short_chunk_tiling_witness :
  1 ≤ length (str "ab") ≤ 3 ∧ 3 ≤ 4
  ∧ _is_repeated_short_chunk (str "abababab") = true.
Proof.
  assert (H1 : 1 ≤ length (str "ab") ≤ 3) by (simpl; lia).
  assert (H2 : 3 ≤ 4) by lia.
  split; [exact H1|]. split; [exact H2|].
  exact (repeated_short_chunk_tiling (str "ab") 4 H1 H2).
Defined.

(** X7.  [_is_repeated_short_chunk] never flags a string of fewer than
    three characters. *)
Theorem repeated_short_chunk_short (pw : pystr) :
  length pw < 3 → _is_repeated_short_chunk pw = false.
Proof.
  intros Hlen. destruct pw as [|a [|b [|c pw]]]; try (simpl in Hlen; lia).
  - reflexivity.
  - unfold _is_repeated_short_chunk. cbn -[bool_decide str_eqb].
    by rewrite !andb_false_r.
  - unfold _is_repeated_short_chunk. cbn -[bool_decide str_eqb].
    repeat match goal with
      | |- context [(?x && false)%bool] => rewrite (andb_false_r x)
      | |- context [if ?c then _ else _] => destruct c
      end; reflexivity.
Qed.

Lemma repeated_short_chunk_short_witness :
  length (str "aa") < 3 ∧ _is_repeated_short_chunk (str "aa") = false.
Proof.
  assert (H : length (str "aa") < 3) by (simpl; lia).
  split; [exact H | exact (repeated_short_chunk_short (str "aa") H)].
Defined.

(** X8.  The second test of [_is_repeated_short_chunk] is loose: a string
    whose first character occurs three times or more, anywhere, is
    flagged, tiling or not. *)
Theorem repeated_short_chunk_first_char (c : ascii) (r : pystr) :
  3 ≤ count_in [c] (c :: r) →
  _is_repeated_short_chunk (c :: r) = true.
Proof.
  intros Hcount. unfold _is_repeated_short_chunk. cbv zeta.
  apply orb_true_iff. right. apply existsb_exists.
  exists 1. split; [by left|].
  unfold slice. rewrite drop_0. cbn [Nat.sub take firstn].
  unfold str_count. rewrite count_from_single.
  apply andb_true_iff. split; [by apply Nat.leb_le|].
  apply Nat.leb_le. unfold count_in in Hcount.
  pose proof (filter_length_le (fun ch => char_in ch [c]) (c :: r)) as Hle.
  rewrite take_0. cbn [length] in *. lia.
Qed.

Lemma repeated_short_chunk_first_char_witness :
  3 ≤ count_in (str "a") (str "a1a2a3")
  ∧ _is_repeated_short_chunk (str "a1a2a3") = true.
Proof.
  assert (H : 3 ≤ count_in (str "a") (str "a1a2a3")) by (vm_compute; lia).
  split; [exact H|].
  exact (repeated_short_chunk_first_char "a"%char (str "1a2a3") H).
Defined.

(** X9.  The word tokens of lines 340 and 367 are runs of letters of the
    candidate: there is a token of at least three letters exactly when the
    candidate contains three ASCII letters in a row. *)
Theorem word_token_iff_three_letters (s : pystr) :
  has_word_token s ↔
  ∃ w, is_substring w s ∧ 3 ≤ length w ∧ forallb re_AZaz w = true.
Proof.
  split.
  - intros (t & Hin & Hlen).
    destruct (split_from_tokens false s t Hin) as [Ht Hsub]. eauto.
  - intros (w & Hsub & Hlen & Hw). by apply (word_token_of_substring s w).
Qed.

(** X10.  A candidate whose trimmed form has no three ASCII letters in a
    row is never accepted: it is rejected by the hard-reject gate or with
    no_intent_signal, never with low_score. *)
Theorem no_letters_never_accepted (pw : pystr) :
  (¬ ∃ w, is_substring w (strip pw) ∧ 3 ≤ length w
          ∧ forallb re_AZaz w = true) →
  is_valid_password pw = Ok false
  ∧ ∃ r, decides pw false r
         ∧ r ≠ "accepted"%string ∧ r ≠ "low_score"%string.
Proof.
  intros Hno.
  destruct (gate_cases pw)
    as (seq_len & max_run & smashy & wpd & _ & _ & _ & Hwpd
        & b & info & r & Hv & Hr & Hcases).
  cbv zeta in Hwpd, Hcases.
  assert (Hint : _looks_like_passphrase (strip pw)
                 || (2 <=? _camel_case_segments (strip pw)) || wpd = false).
  { destruct (_ || _ || wpd) eqn:Hi; [|done]. exfalso. apply Hno.
    destruct (intent_needs_word_token (strip pw) wpd Hwpd Hi)
      as (t & Hin & Hlen).
    destruct (split_from_tokens false (strip pw) t Hin) as [Ht Hsub].
    eauto. }
  rewrite Hint in Hcases.
  assert (Hb : b = false ∧ r ≠ "accepted"%string ∧ r ≠ "low_score"%string).
  { destruct Hcases as
      [(_ & -> & ->) | [(_ & _ & -> & ->) | [(_ & _ & _ & -> & ->)
      | [(_ & _ & _ & _ & -> & ->) | (_ & _ & _ & [(_ & -> & ->)
      | [([=] & _) | ([=] & _)]])]]]]; done. }
  destruct Hb as (-> & Hna & Hnl). split.
  - unfold is_valid_password. by rewrite Hv.
  - exists r. split; [by exists info | done].
Qed.

Lemma no_letters_never_accepted_witness :
  (¬ ∃ w, is_substring w (strip (str "19-07-2024!#")) ∧ 3 ≤ length w
          ∧ forallb re_AZaz w = true)
  ∧ is_valid_password (str "19-07-2024!#") = Ok false.
Proof.
  assert (H : ¬ ∃ w, is_substring w (strip (str "19-07-2024!#"))
                     ∧ 3 ≤ length w ∧ forallb re_AZaz w = true).
  { intros (w & Hsub & Hlen & Hw).
    pose proof (word_token_of_substring _ w Hsub Hw Hlen) as Ht.
    apply has_word_token_spec in Ht. vm_compute in Ht. discriminate. }
  split; [exact H|].
  exact (proj1 (no_letters_never_accepted (str "19-07-2024!#") H)).
Defined.

(** X11.  A month abbreviation is itself a word: a candidate that
    contains one (case ignored) and has no linear sequence of four is
    word-plus-dateish, whatever else it contains. *)
Theorem month_alone_is_word_plus_dateish (pw : pystr) (n : nat) :
  contains_month (lower pw) →
  _longest_linear_sequence pw = Ok n → n < 4 →
  _has_word_plus_dateish pw = Ok true.
Proof.
  intros Hmonth Hn Hlt. unfold _has_word_plus_dateish.
  rewrite Hn, bind_Ok. f_equal.
  apply andb_true_iff. split; [|by apply Nat.ltb_lt].
  apply andb_true_iff. split.
  - apply has_word_token_spec. by apply month_gives_word_token.
  - apply orb_true_iff. right. by apply has_month_spec.
Qed.

Lemma month_alone_is_word_plus_dateish_witness :
  contains_month (lower (str "27AUG!#"))
  ∧ _longest_linear_sequence (str "27AUG!#") = Ok 1 ∧ 1 < 4
  ∧ _has_word_plus_dateish (str "27AUG!#") = Ok true.
Proof.
  assert (H1 : contains_month (lower (str "27AUG!#"))).
  { apply has_month_spec. vm_compute. reflexivity. }
  assert (H2 : _longest_linear_sequence (str "27AUG!#") = Ok 1)
    by (vm_compute; reflexivity).
  assert (H3 : 1 < 4) by lia.
  do 3 (split; [assumption|]).
  exact (month_alone_is_word_plus_dateish _ _ H1 H2 H3).
Defined.


(** X13.  Whenever the record has a score, it lies between -12 and 13. *)
Theorem score_bounds (pw : pystr) (b : bool) (info : gmap string value)
    (z : Z) :
  _validate_details pw = Ok (b, info) →
  info !! "score"%string = Some (VInt z) →
  (-12 ≤ z ≤ 13)%Z.
Proof.
  intros Hv Hz.
  destruct (score_entry_passed pw b info z Hv Hz)
    as (Hlen & seq_len & max_run & smashy & wpd & ->).
  by apply score_of_bounds.
Qed.

Lemma score_bounds_witness :
  ∃ b info,
    _validate_details (str "Ravi@Vizag_27Aug") = Ok (b, info)
    ∧ info !! "score"%string = Some (VInt 13)
    ∧ (-12 ≤ 13 ≤ 13)%Z.
Proof.
  destruct (gate_cases (str "Ravi@Vizag_27Aug"))
    as (seq_len & max_run & smashy & wpd & Hseq & Hrun & Hsmash & Hwpd
        & b & info & r & Hv & Hr & Hcases).
  assert (Hpass : passes_hard_reject_gate (strip (str "Ravi@Vizag_27Aug"))).
  { apply passes_gate_b_spec. vm_compute. reflexivity. }
  unfold passes_hard_reject_gate in Hpass.
  destruct Hcases as [?|[?|[?|[?|(_ & Hscore & _)]]]]; try tauto.
  vm_compute in Hseq, Hrun, Hsmash, Hwpd.
  injection Hseq as <-. injection Hrun as <-. injection Hsmash as <-.
  injection Hwpd as <-.
  assert (Hz : info !! "score"%string = Some (VInt 13)).
  { rewrite Hscore. vm_compute. reflexivity. }
  exists b, info. split; [exact Hv|]. split; [exact Hz|].
  exact (score_bounds _ _ _ _ Hv Hz).
Defined.

(** X14.  Whatever is accepted has passed all four hard-reject conditions
    (at least 8 characters after trimming, no banned term, ambiguous ratio
    below 0.60, no sequence or keyboard walk of 5) and contains a word of
    at least three letters. *)
Theorem accepted_only_if (pw : pystr) :
  is_valid_password pw = Ok true →
  decides pw true "accepted"
  ∧ passes_hard_reject_gate (strip pw)
  ∧ has_word_token (strip pw).
Proof.
  intros Hacc.
  destruct (gate_cases pw)
    as (seq_len & max_run & smashy & wpd & _ & _ & _ & Hwpd
        & b & info & r & Hv & Hr & Hcases).
  cbv zeta in Hwpd, Hcases.
  unfold is_valid_password in Hacc. rewrite Hv in Hacc.
  cbn in Hacc. injection Hacc as ->.
  destruct Hcases as
    [(_ & [=] & _) | [(_ & _ & [=] & _) | [(_ & _ & _ & [=] & _)
    | [(_ & _ & _ & _ & [=] & _) | (Hpass & _ & _ & [(_ & [=] & _)
    | [(Hint & _ & _ & ->) | (_ & _ & [=] & _)]])]]]].
  split; [by exists info|]. split; [done|].
  by apply (intent_needs_word_token (strip pw) wpd).
Qed.

Lemma accepted_only_if_witness :
  is_valid_password (str "happy-biryani-2025!") = Ok true
  ∧ decides (str "happy-biryani-2025!") true "accepted"
  ∧ passes_hard_reject_gate (strip (str "happy-biryani-2025!"))
  ∧ has_word_token (strip (str "happy-biryani-2025!")).
Proof.
  assert (Hpass : passes_hard_reject_gate (strip (str "happy-biryani-2025!"))).
  { apply passes_gate_b_spec. vm_compute. reflexivity. }
  assert (H : is_valid_password (str "happy-biryani-2025!") = Ok true).
  { destruct (gate_cases (str "happy-biryani-2025!"))
      as (seq_len & max_run & smashy & wpd & Hseq & Hrun & Hsmash & Hwpd
          & b & info & r & Hv & Hr & Hcases).
    unfold is_valid_password. rewrite Hv. cbn. f_equal.
    unfold passes_hard_reject_gate in Hpass.
    destruct Hcases as [?|[?|[?|[?|(_ & _ & _ & Hcases)]]]]; try tauto.
    vm_compute in Hseq, Hrun, Hsmash, Hwpd.
    injection Hseq as <-. injection Hrun as <-. injection Hsmash as <-.
    injection Hwpd as <-. cbv zeta in Hcases.
    destruct Hcases as [(Hi & _) | [(_ & _ & -> & _) | (_ & Hs & _)]];
      [vm_compute in Hi; discriminate | reflexivity
      | vm_compute in Hs; discriminate]. }
  split; [exact H|]. exact (accepted_only_if _ H).
Defined.

(** X15.  A character that is not an ASCII letter cuts the candidate in
    two for the word tokens: the tokens of [u ++ c :: v] are the tokens of
    [u] followed by the tokens of [v]. *)
Theorem word_tokens_split_at_separator (u v : pystr) (c : ascii) :
  re_AZaz c = false →
  word_tokens (u ++ c :: v) = word_tokens u ++ word_tokens v.
Proof.
  intros Hc. unfold word_tokens, re_split_nonalpha.
  rewrite filter_split_from_app by done.
  by rewrite filter_split_from_any.
Qed.

Lemma word_tokens_split_at_separator_witness :
  re_AZaz "7" = false
  ∧ word_tokens (str "blue" ++ "7"%char :: str "sky")
    = [str "blue"; str "sky"].
Proof.
  assert (H : re_AZaz "7" = false) by reflexivity.
  split; [exact H|].
  rewrite (word_tokens_split_at_separator (str "blue") (str "sky") "7" H).
  vm_compute. reflexivity.
Defined.

(** X16.  A candidate made of ASCII letters only is never
    passphrase-like: without a separator there is one token at most. *)
Theorem letters_only_not_passphrase (pw : pystr) :
  forallb re_AZaz pw = true → _looks_like_passphrase pw = false.
Proof.
  intros Hw. unfold _looks_like_passphrase, word_tokens, re_split_nonalpha.
  apply Nat.leb_gt. destruct pw as [|c pw].
  - simpl. lia.
  - rewrite split_from_letters by done. cbn [List.filter].
    destruct (3 <=? _); simpl; lia.
Qed.

Lemma letters_only_not_passphrase_witness :
  forallb re_AZaz (str "CorrectHorseBattery") = true
  ∧ _looks_like_passphrase (str "CorrectHorseBattery") = false.
Proof.
  assert (H : forallb re_AZaz (str "CorrectHorseBattery") = true)
    by (vm_compute; reflexivity).
  split; [exact H | exact (letters_only_not_passphrase _ H)].
Defined.

(** X17.  [_looks_like_consonant_smash] returns, and it returns true
    exactly when some maximal run of ASCII letters of the candidate (a
    token of the split on non-letters) has at least 7 letters of which
    fewer than a fifth are vowels. *)
Theorem consonant_smash_iff (pw : pystr) :
  ∃ b,
    _looks_like_consonant_smash pw = Ok b
    ∧ (b = true ↔
       ∃ t, t ∈ re_split_nonalpha pw ∧ 7 ≤ length t
            ∧ 5 * count_in vowels t < length t).
Proof.
  unfold _looks_like_consonant_smash, re_findall.
  rewrite smash_loop_existsb by apply findall_from_nonempty.
  eexists. split; [reflexivity|].
  rewrite (findall_alpha7_split (length pw) pw false) by done.
  rewrite existsb_exists. unfold re_split_nonalpha, few_vowels. split.
  - intros (t & Hin & Hfew). apply filter_In in Hin as [Hin H7].
    exists t. split; [by apply list_elem_of_In|].
    split; [by apply Nat.leb_le | by apply Nat.ltb_lt].
  - intros (t & Hin & H7 & Hfew). exists t. split.
    + apply filter_In. split; [by apply list_elem_of_In | by apply Nat.leb_le].
    + by apply Nat.ltb_lt.
Qed.



(** X19.  Every CamelCase segment takes at least three characters and the
    segments do not overlap: three times the segment count is at most
    the length, so the CamelCase flag needs six characters or more. *)
Theorem camel_case_segments_bound (pw : pystr) :
  3 * _camel_case_segments pw ≤ length pw.
Proof.
  unfold _camel_case_segments, re_findall.
  assert (H : ∀ s skip, skip ≤ length s →
            3 * length (findall_from match_camel skip s) + skip ≤ length s).
  { induction s as [|c s IH]; intros skip Hskip.
    - simpl in *. lia.
    - cbn [findall_from length] in *. destruct skip as [|k].
      + unfold match_camel at 1.
        pose proof (take_while_length re_az s) as Hrun.
        destruct (re_AZ c && (2 <=? length (take_while re_az s))) eqn:Hm.
        * apply andb_true_iff in Hm as [_ Hm]. apply Nat.leb_le in Hm.
          cbn [length]. specialize (IH (length (take_while re_az s)) Hrun).
          lia.
        * specialize (IH 0). lia.
      + specialize (IH k). lia. }
  specialize (H pw 0). lia.
Qed.
